(** * The RRULE Gauntlet: a shallow embedding of [rrule_gauntlet.py]

    The development follows the layout of the script: Python strings and
    their methods, the answer comparator, the JSON decoder the script calls,
    the response parser, the ground-truth resolver and the evaluation
    runner.  External capabilities (the Truth Engine, the LLM providers) are
    section variables threading an abstract world state. *)

From Stdlib Require Import String Ascii List NArith ZArith Lia Bool Permutation.
From Stdlib Require DecimalString.
Import ListNotations.

Set Implicit Arguments.

(** ** Python [str]

    A Python string is a sequence of Unicode code points.  Code points are
    natural numbers ([N]); a string is a list of them. *)

Module PyStr.

Definition char := N.
Definition str := list char.

(** An ASCII literal of the script, read as code points. *)
Definition lit (s : string) : str :=
  map N_of_ascii (list_ascii_of_string s).

Definition NL : char := 10%N.
Definition DQ : char := 34%N.

(** [a == b] on strings. *)
Fixpoint eqb (a b : str) : bool :=
  match a, b with
  | [], [] => true
  | x :: a', y :: b' => N.eqb x y && eqb a' b'
  | _, _ => false
  end.

(** [a == b] on lists of strings. *)
Fixpoint list_eqb (a b : list str) : bool :=
  match a, b with
  | [], [] => true
  | x :: a', y :: b' => eqb x y && list_eqb a' b'
  | _, _ => false
  end.

(** [x in l] for a list [l] of strings. *)
Definition mem (x : str) (l : list str) : bool := existsb (eqb x) l.

(** [str.isspace] on one code point: the characters [str.strip()] removes
    (CPython's [_Py_ascii_whitespace] table and [_PyUnicode_IsWhitespace]). *)
Definition isspace (c : char) : bool :=
  ((0x09 <=? c) && (c <=? 0x0D) || (0x1C <=? c) && (c <=? 0x20)
   || (c =? 0x85) || (c =? 0xA0) || (c =? 0x1680)
   || (0x2000 <=? c) && (c <=? 0x200A)
   || (c =? 0x2028) || (c =? 0x2029) || (c =? 0x202F)
   || (c =? 0x205F) || (c =? 0x3000))%N.

Fixpoint lstrip (s : str) : str :=
  match s with
  | c :: r => if isspace c then lstrip r else s
  | [] => []
  end.

Definition rstrip (s : str) : str := rev (lstrip (rev s)).

(** [s.strip()] *)
Definition strip (s : str) : str := rstrip (lstrip s).

(** [s.startswith(p)] *)
Fixpoint startswith (s p : str) {struct p} : bool :=
  match p, s with
  | [], _ => true
  | x :: p', y :: s' => N.eqb x y && startswith s' p'
  | _ :: _, [] => false
  end.

(** [s.endswith(p)] *)
Definition endswith (s p : str) : bool := startswith (rev s) (rev p).

(** [p in s] (substring test) *)
Fixpoint contains (s p : str) : bool :=
  startswith s p ||
  match s with
  | [] => false
  | _ :: r => contains r p
  end.

(** [s.find(c)] for a one-character needle: the least index, or -1. *)
Fixpoint find (s : str) (c : char) : Z :=
  match s with
  | [] => (-1)%Z
  | x :: r =>
      if N.eqb x c then 0%Z
      else let i := find r c in if (i <? 0)%Z then (-1)%Z else (i + 1)%Z
  end.

(** [s.rfind(c)] for a one-character needle: the greatest index, or -1. *)
Definition rfind (s : str) (c : char) : Z :=
  let i := find (rev s) c in
  if (i <? 0)%Z then (-1)%Z else (Z.of_nat (length s) - 1 - i)%Z.

(** [s[start:stop]] for [0 <= start]: empty when [stop <= start], clamped
    to the end of [s]. *)
Definition slice (s : str) (start stop : Z) : str :=
  firstn (Z.to_nat (stop - start)) (skipn (Z.to_nat start) s).

(** [s.split(sep)] for a one-character separator: never empty. *)
Fixpoint split (s : str) (sep : char) : list str :=
  match s with
  | [] => [[]]
  | c :: r =>
      if N.eqb c sep then [] :: split r sep
      else match split r sep with
           | l :: ls => (c :: l) :: ls
           | [] => [[c]]
           end
  end.

(** [sep.join(parts)] *)
Fixpoint join (sep : str) (parts : list str) : str :=
  match parts with
  | [] => []
  | [p] => p
  | p :: ps => p ++ sep ++ join sep ps
  end.

End PyStr.

Import PyStr.

(** ** Answer comparison *)

(** [normalize_datetime]: strip, then rewrite a final [Z] to [+00:00]. *)
Definition normalize_datetime (s : str) : str :=
  let s := strip s in
  if endswith s (lit "Z") then removelast s ++ lit "+00:00" else s.

(** The dict [compare_answers] returns. *)
Record verdict := {
  correct : bool;
  expected_count : nat;
  actual_count : nat;
  matching : nat;
  missing : list str;
  extra : list str
}.

(** The body of [compare_answers] once both lists are normalized. *)
Definition compare_normalized (norm_expected norm_actual : list str) : verdict :=
  let matching :=
    list_sum (map (fun _ => 1)
                (filter (fun ea => eqb (fst ea) (snd ea))
                        (combine norm_expected norm_actual))) in
  let missing := filter (fun e => negb (mem e norm_actual)) norm_expected in
  let extra := filter (fun a => negb (mem a norm_expected)) norm_actual in
  {| correct := list_eqb norm_expected norm_actual;
     expected_count := length norm_expected;
     actual_count := length norm_actual;
     matching := matching;
     missing := missing;
     extra := extra |}.

Definition compare_answers (expected actual : list str) : verdict :=
  let norm_expected := map normalize_datetime expected in
  let norm_actual := map normalize_datetime actual in
  compare_normalized norm_expected norm_actual.

(** ** Exceptions and results

    A raised Python exception is its class name and the text [str(e)]
    gives.  Only instances of [Exception] are modelled: the script's
    handlers are [except Exception], which is every failure a library call
    reports ([KeyboardInterrupt] and [SystemExit] stay outside). *)

Record exn := Exn { exn_class : str; exn_text : str }.

Inductive result (A : Type) : Type :=
| Ok (a : A)
| Raise (e : exn).

Arguments Ok {A} a.
Arguments Raise {A} e.

Definition bind {A B} (r : result A) (k : A -> result B) : result B :=
  match r with
  | Ok a => k a
  | Raise e => Raise e
  end.

Declare Scope result_scope.
Delimit Scope result_scope with result.
Notation "x <- r ;; k" := (bind r (fun x => k))
  (at level 61, r at next level, right associativity) : result_scope.
Notation "' p <- r ;; k" := (bind r (fun p => k))
  (at level 61, p pattern, r at next level, right associativity) : result_scope.

Definition is_ok {A} (r : result A) : bool :=
  match r with Ok _ => true | Raise _ => false end.

(** ** Python [dict]: keys in insertion order; assigning to a key that is
    present replaces its value in place. *)

Module PyDict.

Fixpoint set {V} (d : list (str * V)) (k : str) (v : V) : list (str * V) :=
  match d with
  | [] => [(k, v)]
  | (k', v') :: r =>
      if eqb k' k then (k', v) :: r else (k', v') :: set r k v
  end.

Fixpoint get {V} (d : list (str * V)) (k : str) : option V :=
  match d with
  | [] => None
  | (k', v') :: r => if eqb k' k then Some v' else get r k
  end.

Definition keys {V} (d : list (str * V)) : list str := map fst d.

End PyDict.

(** ** The values [json.loads] builds

    [None], [bool], numbers, [str], [list] and [dict].  A number keeps the
    text it was read from ([NaN], [Infinity] and [-Infinity] included): the
    script never computes with one. *)

#[local] Unset Elimination Schemes.

Inductive json :=
| JNull
| JBool (b : bool)
| JNumber (lexeme : str)
| JString (s : str)
| JArray (items : list json)
| JObject (members : list (str * json)).

#[local] Set Elimination Schemes.

(** ** [json.loads]

    A model of the decoder of CPython 3.11 ([json.decoder], [json.scanner]
    and their C accelerator) with the default options: [strict] strings, no
    hooks.  A [JSONDecodeError] carries the position of the failure, as
    [str(e)] prints it.  The two limits of the interpreter the decoder can
    run into, the depth of the call stack and the number of digits of an
    [int], stand at their defaults: the script changes neither. *)

Module JsonDecoder.

Local Open Scope N_scope.
Local Open Scope result_scope.

Definition str_of_nat (n : nat) : str :=
  lit (DecimalString.NilZero.string_of_uint (Nat.to_uint n)).

(** [sys.get_int_max_str_digits()] *)
Definition int_max_str_digits : nat := 4300.

(** [sys.getrecursionlimit()] *)
Definition recursion_limit : nat := 1000.

(** The entries of the call stack in use when the scanner starts under
    [cmd_test]: the module, [main], [cmd_test], the function that calls
    [json.loads], then [loads], [decode], [raw_decode] and the call of the
    scanner.  (Under [cmd_verify] the resolver sits one call deeper, behind
    [verify_all]; the model does not tell the two apart.) *)
Definition frames_in_use : nat := 8.

(** How deep the scanner may nest arrays and objects: each one it enters
    takes an entry of the call stack ([Py_EnterRecursiveCall]). *)
Definition scanner_depth : nat := recursion_limit - frames_in_use.

(** The line and the column, both counted from 1, that follow [prefix]. *)
Fixpoint line_column (prefix : str) (line column : nat) : nat * nat :=
  match prefix with
  | [] => (line, column)
  | c :: r =>
      if c =? NL then line_column r (S line) 1%nat
      else line_column r line (S column)
  end.

(** [JSONDecodeError(msg, doc, pos)] *)
Definition JSONDecodeError (msg : string) (doc : str) (pos : nat) : exn :=
  let (lineno, colno) := line_column (firstn pos doc) 1%nat 1%nat in
  Exn (lit "JSONDecodeError")
      (lit msg ++ lit ": line " ++ str_of_nat lineno
         ++ lit " column " ++ str_of_nat colno
         ++ lit " (char " ++ str_of_nat pos ++ lit ")").

(** What the interpreter raises when the call stack is full; [during]
    is the text the failing call adds to the message. *)
Definition RecursionError (during : str) : exn :=
  Exn (lit "RecursionError") (lit "maximum recursion depth exceeded" ++ during).

(** [Py_EnterRecursiveCall] failing at an opening bracket or brace. *)
Definition nested_too_deep (what : string) : exn :=
  RecursionError (lit " while decoding a JSON " ++ lit what
                    ++ lit " from a unicode string").

(** What [int] raises for a text of more than [int_max_str_digits]
    digits. *)
Definition DigitLimitError (digits : nat) : exn :=
  Exn (lit "ValueError")
      (lit "Exceeds the limit (" ++ str_of_nat int_max_str_digits
         ++ lit " digits) for integer string conversion: value has "
         ++ str_of_nat digits
         ++ lit " digits; use sys.set_int_max_str_digits() to increase the limit").

(** Not an exception of Python: what the loops of the model return when
    their fuel runs out.  [json_loads] never returns it (lemma
    [json_loads_fuel]). *)
Definition OutOfFuel : exn := Exn (lit "OutOfFuel") [].

(** [WHITESPACE = r'[ \t\n\r]*'] *)
Definition is_ws (c : char) : bool :=
  (c =? 0x20) || (c =? 0x09) || (c =? 0x0A) || (c =? 0x0D).

Fixpoint skip_ws (s : str) : str :=
  match s with
  | c :: r => if is_ws c then skip_ws r else s
  | [] => []
  end.

Definition is_digit (c : char) : bool := (0x30 <=? c) && (c <=? 0x39).

(** The longest run of digits at the head of [s], and what follows it. *)
Fixpoint digits (s : str) : str * str :=
  match s with
  | c :: r =>
      if is_digit c then let (ds, r') := digits r in (c :: ds, r')
      else ([], s)
  | [] => ([], [])
  end.

(** [_match_number]: an optional minus sign, then zero or a digit run
    that does not start with zero, then optionally a dot and digits, then
    optionally an exponent ([e] or [E], an optional sign, digits); longest
    match.  Returns the text matched and the rest. *)
Definition match_int (s : str) : option (str * str) :=
  let (sign, s1) :=
    match s with
    | c :: r => if c =? 0x2D then ([c], r) else ([], s)
    | [] => ([], s)
    end in
  match s1 with
  | c :: r =>
      if (0x31 <=? c) && (c <=? 0x39) then
        let (ds, r') := digits r in Some (sign ++ c :: ds, r')
      else if c =? 0x30 then Some (sign ++ [c], r)
      else None
  | [] => None
  end.

Definition match_frac (s : str) : str * str :=
  match s with
  | dot :: d :: r =>
      if (dot =? 0x2E) && is_digit d then
        let (ds, r') := digits r in (dot :: d :: ds, r')
      else ([], s)
  | _ => ([], s)
  end.

Definition match_exp (s : str) : str * str :=
  match s with
  | e :: r =>
      if (e =? 0x65) || (e =? 0x45) then
        let (sign, r1) :=
          match r with
          | c :: ((_ :: _) as r') =>
              if (c =? 0x2B) || (c =? 0x2D) then ([c], r') else ([], r)
          | _ => ([], r)
          end in
        match digits r1 with
        | (d :: ds, r2) => (e :: sign ++ d :: ds, r2)
        | ([], _) => ([], s)
        end
      else ([], s)
  | [] => ([], s)
  end.

Definition match_number (s : str) : option (str * str) :=
  match match_int s with
  | Some (i, r) =>
      let (f, r1) := match_frac r in
      let (e, r2) := match_exp r1 in
      Some (i ++ f ++ e, r2)
  | None => None
  end.

(** A number with no fraction and no exponent is handed to [int]: its
    text holds a sign and digits only. *)
Definition is_int_lexeme (lexeme : str) : bool :=
  forallb (fun c => is_digit c || (c =? 0x2D)) lexeme.

Definition digit_count (lexeme : str) : nat := length (filter is_digit lexeme).

(** The value of a number read as [lexeme], or the failure of [int]. *)
Definition number_of (lexeme : str) : result json :=
  if is_int_lexeme lexeme && Nat.ltb int_max_str_digits (digit_count lexeme)
  then Raise (DigitLimitError (digit_count lexeme))
  else Ok (JNumber lexeme).

Definition hex_digit (c : char) : option N :=
  if (0x30 <=? c) && (c <=? 0x39) then Some (c - 0x30)
  else if (0x61 <=? c) && (c <=? 0x66) then Some (c - 0x61 + 10)
  else if (0x41 <=? c) && (c <=? 0x46) then Some (c - 0x41 + 10)
  else None.

Definition hex4 (a b c d : char) : option N :=
  match hex_digit a, hex_digit b, hex_digit c, hex_digit d with
  | Some x, Some y, Some z, Some w => Some (((x * 16 + y) * 16 + z) * 16 + w)
  | _, _, _, _ => None
  end.

(** The [BACKSLASH] table. *)
Definition backslash (c : char) : option char :=
  if c =? 0x22 then Some 0x22          (* quote *)
  else if c =? 0x5C then Some 0x5C     (* backslash *)
  else if c =? 0x2F then Some 0x2F     (* slash *)
  else if c =? 0x62 then Some 0x08     (* b *)
  else if c =? 0x66 then Some 0x0C     (* f *)
  else if c =? 0x6E then Some 0x0A     (* n *)
  else if c =? 0x72 then Some 0x0D     (* r *)
  else if c =? 0x74 then Some 0x09     (* t *)
  else None.

Definition is_high_surrogate (c : N) : bool := (0xD800 <=? c) && (c <=? 0xDBFF).
Definition is_low_surrogate (c : N) : bool := (0xDC00 <=? c) && (c <=? 0xDFFF).
Definition join_surrogates (hi lo : N) : N :=
  0x10000 + (N.lor (N.shiftl (hi - 0xD800) 10) (lo - 0xDC00)).

Section Document.

(** The text being decoded: failures are reported by their place in it. *)
Variable doc : str.

(** [JSONDecodeError(msg, doc, pos)] for the place where [rest], a
    suffix of the document, starts. *)
Definition error_at (msg : string) (rest : str) : exn :=
  JSONDecodeError msg doc (length doc - length rest).

(** [raise_errmsg], which the scanner uses for every failure but
    [Expecting value]: it calls the class [JSONDecodeError], and that takes
    three entries of the call stack one after the other (the call of the
    class, the frame of its [__init__], the call of [ValueError.__init__]
    there).  [remaining] is the number of entries left at this point; with
    fewer than three the call fails and its [RecursionError] is what the
    decoder raises. *)
Definition raise_errmsg (remaining : nat) (msg : string) (rest : str) : exn :=
  match remaining with
  | 0%nat => RecursionError (lit " while calling a Python object")
  | 1%nat => RecursionError []
  | 2%nat => RecursionError (lit " while calling a Python object")
  | _ => error_at msg rest
  end.

Section Level.

(** The entries of the call stack left where the scanner is. *)
Variable remaining : nat.

(** [scanstring], from just after the opening quote; [opening] is the
    text from that quote on, and [acc] holds the characters decoded so
    far, last first. *)
Fixpoint scanstring (opening s acc : str) : result (str * str) :=
  match s with
  | [] => Raise (raise_errmsg remaining "Unterminated string starting at" opening)
  | c :: r =>
      if c =? 0x22 then Ok (rev acc, r)
      else if c =? 0x5C then
        match r with
        | [] => Raise (raise_errmsg remaining "Unterminated string starting at" opening)
        | e :: r1 =>
            if e =? 0x75 then
              match r1 with
              | h1 :: h2 :: h3 :: h4 :: ((_ :: _) as r2) =>
                  match hex4 h1 h2 h3 h4 with
                  | None => Raise (raise_errmsg remaining "Invalid \uXXXX escape" r)
                  | Some u =>
                      match r2 with
                      | b :: ((u' :: g1 :: g2 :: g3 :: g4 :: ((_ :: _) as r3)) as second) =>
                          if is_high_surrogate u && (b =? 0x5C) && (u' =? 0x75) then
                            match hex4 g1 g2 g3 g4 with
                            | None => Raise (raise_errmsg remaining "Invalid \uXXXX escape" second)
                            | Some u2 =>
                                if is_low_surrogate u2
                                then scanstring opening r3 (join_surrogates u u2 :: acc)
                                else scanstring opening r2 (u :: acc)
                            end
                          else scanstring opening r2 (u :: acc)
                      | _ => scanstring opening r2 (u :: acc)
                      end
                  end
              | _ => Raise (raise_errmsg remaining "Invalid \uXXXX escape" r)
              end
            else
              match backslash e with
              | Some c' => scanstring opening r1 (c' :: acc)
              | None => Raise (raise_errmsg remaining "Invalid \escape" s)
              end
        end
      else if c <=? 0x1F then Raise (raise_errmsg remaining "Invalid control character at" s)
      else scanstring opening r (c :: acc)
  end.

Section Containers.

(** [scan] is [scan_once] one level down. *)
Variable scan : str -> result (json * str).

(** The loop of [_parse_array], at the start of an element; [n] bounds
    the number of elements read. *)
Fixpoint array_loop (n : nat) (s : str) (acc : list json)
  : result (json * str) :=
  match n with
  | O => Raise OutOfFuel
  | S n' =>
      '(v, r) <- scan s ;;
      match skip_ws r with
      | c :: r' =>
          if c =? 0x5D then Ok (JArray (rev (v :: acc)), r')
          else if c =? 0x2C then array_loop n' (skip_ws r') (v :: acc)
          else Raise (raise_errmsg remaining "Expecting ',' delimiter" (c :: r'))
      | [] => Raise (raise_errmsg remaining "Expecting ',' delimiter" [])
      end
  end.

(** [_parse_array], from just after the bracket. *)
Definition parse_array (n : nat) (s : str) : result (json * str) :=
  match skip_ws s with
  | c :: r =>
      if c =? 0x5D then Ok (JArray [], r) else array_loop n (c :: r) []
  | [] => array_loop n [] []
  end.

(** The loop of [_parse_object], at the start of a key; [n] bounds the
    number of members read. *)
Fixpoint object_loop (n : nat) (s : str) (acc : list (str * json))
  : result (json * str) :=
  match n with
  | O => Raise OutOfFuel
  | S n' =>
      match s with
      | c :: r =>
          if c =? 0x22 then
            '(k, r1) <- scanstring s r [] ;;
            match skip_ws r1 with
            | c2 :: r2 =>
                if c2 =? 0x3A then
                  '(v, r3) <- scan (skip_ws r2) ;;
                  match skip_ws r3 with
                  | c3 :: r4 =>
                      if c3 =? 0x7D then Ok (JObject (PyDict.set acc k v), r4)
                      else if c3 =? 0x2C
                      then object_loop n' (skip_ws r4) (PyDict.set acc k v)
                      else Raise (raise_errmsg remaining "Expecting ',' delimiter" (c3 :: r4))
                  | [] => Raise (raise_errmsg remaining "Expecting ',' delimiter" [])
                  end
                else Raise (raise_errmsg remaining "Expecting ':' delimiter" (c2 :: r2))
            | [] => Raise (raise_errmsg remaining "Expecting ':' delimiter" [])
            end
          else Raise (raise_errmsg remaining
                        "Expecting property name enclosed in double quotes" s)
      | [] => Raise (raise_errmsg remaining
                       "Expecting property name enclosed in double quotes" s)
      end
  end.

(** [_parse_object], from just after the brace. *)
Definition parse_object (n : nat) (s : str) : result (json * str) :=
  match skip_ws s with
  | c :: r =>
      if c =? 0x7D then Ok (JObject [], r) else object_loop n (c :: r) []
  | [] => object_loop n [] []
  end.

End Containers.

End Level.

(** [scan_once]: one JSON value at the head of [s].  [depth] is the
    number of arrays and objects the scanner may still enter, one inside
    the other. *)
Fixpoint scan_once (depth : nat) (s : str) {struct depth}
  : result (json * str) :=
  match s with
  | [] => Raise (error_at "Expecting value" s)
  | c :: r =>
      if c =? 0x22 then
        '(v, r') <- scanstring depth s r [] ;; Ok (JString v, r')
      else if c =? 0x7B then
        match depth with
        | O => Raise (nested_too_deep "object")
        | S depth' => parse_object depth' (scan_once depth') (S (length r)) r
        end
      else if c =? 0x5B then
        match depth with
        | O => Raise (nested_too_deep "array")
        | S depth' => parse_array depth' (scan_once depth') (S (length r)) r
        end
      else if startswith s (lit "null") then Ok (JNull, skipn 4 s)
      else if startswith s (lit "true") then Ok (JBool true, skipn 4 s)
      else if startswith s (lit "false") then Ok (JBool false, skipn 5 s)
      else if startswith s (lit "NaN") then Ok (JNumber (lit "NaN"), skipn 3 s)
      else if startswith s (lit "Infinity")
      then Ok (JNumber (lit "Infinity"), skipn 8 s)
      else if startswith s (lit "-Infinity")
      then Ok (JNumber (lit "-Infinity"), skipn 9 s)
      else
        match match_number s with
        | Some (lexeme, r') => v <- number_of lexeme ;; Ok (v, r')
        | None => Raise (error_at "Expecting value" s)
        end
  end.

End Document.

(** [json.loads(s)] for a [str] argument. *)
Definition json_loads (s : str) : result json :=
  if startswith s [0xFEFF]
  then Raise (JSONDecodeError
                "Unexpected UTF-8 BOM (decode using utf-8-sig)" s 0)
  else
    '(obj, r) <- scan_once s scanner_depth (skip_ws s) ;;
    match skip_ws r with
    | [] => Ok obj
    | (_ :: _) as rest => Raise (error_at s "Extra data" rest)
    end.

End JsonDecoder.

Import JsonDecoder.

(** ** Agent response parsing *)

Definition FENCE : str := lit "```".
Definition LBRACKET : char := 0x5B%N.
Definition RBRACKET : char := 0x5D%N.

(** [line.strip().startswith(FENCE)] *)
Definition is_fence_line (line : str) : bool := startswith (strip line) FENCE.

(** The [for line in lines] loop of [parse_llm_response]: the lines after
    the first fence line, up to the next fence line or the end. *)
Fixpoint fence_loop (lines : list str) (in_block : bool) (block_lines : list str)
  : list str :=
  match lines with
  | [] => block_lines
  | line :: rest =>
      if is_fence_line line then
        if in_block then block_lines
        else fence_loop rest true block_lines
      else if in_block then fence_loop rest in_block (block_lines ++ [line])
      else fence_loop rest in_block block_lines
  end.

(** The step under the comment [Strip markdown code fences]. *)
Definition strip_fences (text : str) : str :=
  if contains text FENCE then
    let lines := split text NL in
    let block_lines := fence_loop lines false [] in
    match block_lines with
    | [] => text
    | _ :: _ => strip (join [NL] block_lines)
    end
  else text.

(** The step under the comment [Find the JSON array]. *)
Definition slice_brackets (text : str) : str :=
  let start := find text LBRACKET in
  let end_ := rfind text RBRACKET in
  if negb (start =? -1)%Z && negb (end_ =? -1)%Z
  then slice text start (end_ + 1)
  else text.

Definition parse_llm_response (response : str) : result json :=
  let text := strip response in
  let text := strip_fences text in
  let text := slice_brackets text in
  json_loads text.

(** ** Dynamic typing

    What the script's operations do on the values [json.loads] can hand
    them. *)

Module Py.

Local Open Scope result_scope.

(** [type(v).__name__] *)
Definition type_name (v : json) : str :=
  match v with
  | JNull => lit "NoneType"
  | JBool _ => lit "bool"
  | JNumber lexeme => if is_int_lexeme lexeme then lit "int" else lit "float"
  | JString _ => lit "str"
  | JArray _ => lit "list"
  | JObject _ => lit "dict"
  end.

Definition TypeError (text : str) : exn := Exn (lit "TypeError") text.
Definition AttributeError (text : str) : exn := Exn (lit "AttributeError") text.
Definition KeyError (key : str) : exn :=
  Exn (lit "KeyError") (lit "'" ++ key ++ lit "'").
Definition ValueError (text : str) : exn := Exn (lit "ValueError") text.

(** [for x in v]: the elements of a list, the characters of a string, the
    keys of a dict; anything else is not iterable. *)
Definition iter (v : json) : result (list json) :=
  match v with
  | JArray items => Ok items
  | JString s => Ok (map (fun c => JString [c]) s)
  | JObject members => Ok (map JString (PyDict.keys members))
  | _ => Raise (TypeError (lit "'" ++ type_name v ++ lit "' object is not iterable"))
  end.

(** [v[key]] for a string [key]. *)
Definition getitem (v : json) (key : str) : result json :=
  match v with
  | JObject members =>
      match PyDict.get members key with
      | Some x => Ok x
      | None => Raise (KeyError key)
      end
  | JArray _ =>
      Raise (TypeError (lit "list indices must be integers or slices, not str"))
  | JString _ =>
      Raise (TypeError (lit "string indices must be integers, not 'str'"))
  | _ =>
      Raise (TypeError (lit "'" ++ type_name v ++ lit "' object is not subscriptable"))
  end.

(** A list comprehension whose element expression may raise: elements are
    evaluated in order and the first failure ends it. *)
Fixpoint comprehension {A B} (f : A -> result B) (l : list A) : result (list B) :=
  match l with
  | [] => Ok []
  | x :: r => y <- f x ;; ys <- comprehension f r ;; Ok (y :: ys)
  end.

(** [normalize_datetime(v)]: only a [str] has [strip]. *)
Definition normalize_datetime (v : json) : result str :=
  match v with
  | JString s => Ok (normalize_datetime s)
  | _ => Raise (AttributeError
                  (lit "'" ++ type_name v ++ lit "' object has no attribute 'strip'"))
  end.

(** [compare_answers(expected, actual)] where [expected] is a list and
    [actual] is whatever the response decoded to. *)
Definition compare_answers (expected : list json) (actual : json)
  : result verdict :=
  norm_expected <- comprehension normalize_datetime expected ;;
  actual_items <- iter actual ;;
  norm_actual <- comprehension normalize_datetime actual_items ;;
  Ok (compare_normalized norm_expected norm_actual).

End Py.

(** ** Challenges

    A challenge is one object of [challenges.json].  Keys the script reads
    with [.get] are optional; [correct_answer] holds a list, of whatever the
    Truth Engine or the file put there. *)

Record challenge := {
  id : str;
  name : str;
  question : str;
  rrule : str;
  dtstart : str;
  timezone : str;
  duration_minutes : Z;
  until : option str;
  exdates : option (list str);
  max_count : option Z;
  difficulty : str;
  why_llms_fail : option str;
  verification_mode : option str;
  correct_answer : option (list json)
}.

(** [ch["correct_answer"] = answer] *)
Definition set_correct_answer (ch : challenge) (answer : list json) : challenge :=
  {| id := id ch; name := name ch; question := question ch; rrule := rrule ch;
     dtstart := dtstart ch; timezone := timezone ch;
     duration_minutes := duration_minutes ch; until := until ch;
     exdates := exdates ch; max_count := max_count ch;
     difficulty := difficulty ch; why_llms_fail := why_llms_fail ch;
     verification_mode := verification_mode ch;
     correct_answer := Some answer |}.

(** [ch["correct_answer"]] *)
Definition getitem_correct_answer (ch : challenge) : result (list json) :=
  match correct_answer ch with
  | Some answer => Ok answer
  | None => Raise (Py.KeyError (lit "correct_answer"))
  end.

(** [str(n)] for an [int]. *)
Definition str_of_int (n : Z) : str :=
  lit (DecimalString.NilZero.string_of_int (Z.to_int n)).

Definition SYSTEM_PROMPT : str :=
  join [NL]
    [ lit "You are a calendar computation expert. You will be given recurrence rule";
      lit "(RRULE) challenges per RFC 5545. For each challenge, compute the exact";
      lit "UTC start times of the specified recurring events.";
      [];
      lit "Rules:";
      lit "- Output ONLY a JSON array of UTC datetime strings in RFC 3339 format.";
      lit "- Use the +00:00 suffix (not Z).";
      lit "- Account for DST transitions, leap years, and timezone offsets.";
      lit "- Double-check your work: count the occurrences carefully.";
      [];
      lit "Example output format:";
      lit "[" ++ [DQ] ++ lit "2026-03-01T07:00:00+00:00" ++ [DQ] ++ lit ", "
        ++ [DQ] ++ lit "2026-03-08T07:00:00+00:00" ++ [DQ] ++ lit "]";
      [] ].

Definition build_prompt (ch : challenge) : str :=
  let parts :=
    [ lit "Challenge: " ++ name ch;
      [];
      question ch;
      [];
      lit "Technical details:";
      lit "  RRULE: " ++ rrule ch;
      lit "  DTSTART: " ++ dtstart ch ++ lit " (local time in the specified timezone)";
      lit "  Timezone: " ++ timezone ch;
      lit "  Duration: " ++ str_of_int (duration_minutes ch) ++ lit " minutes" ] in
  let parts :=
    match until ch with
    | Some ((_ :: _) as u) =>
        parts ++ [lit "  UNTIL: " ++ u ++ lit " (local time in the specified timezone)"]
    | _ => parts
    end in
  let parts :=
    match exdates ch with
    | Some ((_ :: _) as ex) => parts ++ [lit "  EXDATE: " ++ join (lit ", ") ex]
    | _ => parts
    end in
  let parts := parts ++ [[]] in
  let parts := parts ++ [lit "Return ONLY the JSON array of UTC start times."] in
  join [NL] parts.

(** One value of the dict [verify_all] returns: the start times, or the
    string that begins with [ERROR: ]. *)
Inductive resolution :=
| Starts (starts : list json)
| ErrorText (text : str).

(** The dict [compare_answers] returns or the one the handler of
    [cmd_test] builds, as stored in a result row. *)
Record comparison := {
  c_correct : bool;
  c_expected_count : nat;
  c_actual_count : nat;
  c_matching : nat;
  c_missing : list json;
  c_extra : list json
}.

Definition comparison_of_verdict (v : verdict) : comparison :=
  {| c_correct := correct v;
     c_expected_count := expected_count v;
     c_actual_count := actual_count v;
     c_matching := matching v;
     c_missing := map JString (missing v);
     c_extra := map JString (extra v) |}.

(** One element of [results] in [cmd_test]; the keys of the comparison are
    spread into the row there and kept together here. *)
Record evaluation := {
  row_id : str;
  row_name : str;
  row_difficulty : str;
  row_expected : list json;
  row_actual : json;
  raw_response : str;
  row_comparison : comparison
}.

(** How a command ends: it returns, an exception leaves it, or it calls
    [sys.exit]. *)
Inductive run (A : Type) : Type :=
| Finished (a : A)
| Uncaught (e : exn)
| SysExit (code : Z).

Arguments Finished {A} a.
Arguments Uncaught {A} e.
Arguments SysExit {A} code.

(** ** The resolver and the runner

    The Truth Engine and the two providers are outside the script.  Each
    is a function that may raise and may change the world it runs in. *)

Section Gauntlet.

Variable World : Type.

Definition M (A : Type) : Type := World -> result A * World.

Definition ret {A} (a : A) : M A := fun w => (Ok a, w).
Definition raise {A} (e : exn) : M A := fun w => (Raise e, w).
Definition lift {A} (r : result A) : M A := fun w => (r, w).
Definition bindM {A B} (m : M A) (k : A -> M B) : M B :=
  fun w =>
    match m w with
    | (Ok a, w') => k a w'
    | (Raise e, w') => (Raise e, w')
    end.

(** [try: m except Exception as e: h(e)] *)
Definition try_except {A} (m : M A) (h : exn -> M A) : M A :=
  fun w =>
    match m w with
    | (Ok a, w') => (Ok a, w')
    | (Raise e, w') => h e w'
    end.

Notation "x <- m ;; k" := (bindM m (fun x => k))
  (at level 61, m at next level, right associativity).

(** [temporal_cortex_toon.expand_rrule(rrule, dtstart, duration_minutes,
    timezone, until, max_count)], importing the module included. *)
Variable expand_rrule :
  str -> str -> Z -> str -> option str -> option Z -> M str.

(** [OpenAI().chat.completions.create(...)] down to the message content,
    and [Anthropic().messages.create(...)] down to the text; arguments
    are the model, the system prompt and the user prompt. *)
Variable openai_chat : str -> str -> str -> M str.
Variable anthropic_messages : str -> str -> str -> M str.

Definition is_hardcoded (ch : challenge) : bool :=
  match verification_mode ch with
  | Some mode => eqb mode (lit "hardcoded")
  | None => false
  end.

Definition verify_challenge (ch : challenge) : M (list json) :=
  if is_hardcoded ch then lift (getitem_correct_answer ch)
  else
    result_json <- expand_rrule (rrule ch) (dtstart ch) (duration_minutes ch)
                     (timezone ch) (until ch) (max_count ch) ;;
    events <- lift (json_loads result_json) ;;
    lift (bind (Py.iter events)
            (Py.comprehension (fun e => Py.getitem e (lit "start")))).

(** The loop of [verify_all]; [results] is the dict built so far. *)
Fixpoint verify_loop (challenges : list challenge)
  (results : list (str * resolution)) : M (list (str * resolution)) :=
  match challenges with
  | [] => ret results
  | ch :: rest =>
      results' <- try_except
                    (answer <- verify_challenge ch ;;
                     ret (PyDict.set results (id ch) (Starts answer)))
                    (fun e =>
                       ret (PyDict.set results (id ch)
                              (ErrorText (lit "ERROR: " ++ exn_text e)))) ;;
      verify_loop rest results'
  end.

Definition verify_all (challenges : list challenge)
  : M (list (str * resolution)) :=
  verify_loop challenges [].

Definition run_llm (provider model system user : str) : M str :=
  if eqb provider (lit "openai") then openai_chat model system user
  else if eqb provider (lit "anthropic") then anthropic_messages model system user
  else raise (Py.ValueError (lit "Unknown provider: " ++ provider)).

(** [[ch for ch in challenges if ch["id"] == args.challenge] if
    args.challenge else challenges] *)
Definition select_target (challenges : list challenge) (wanted : option str)
  : list challenge :=
  match wanted with
  | Some ((_ :: _) as w) => filter (fun ch => eqb (id ch) w) challenges
  | _ => challenges
  end.

(** [not ch.get("correct_answer")] *)
Definition lacks_answer (ch : challenge) : bool :=
  match correct_answer ch with
  | Some (_ :: _) => false
  | _ => true
  end.

(** The loop under [Ensure correct answers are populated]; the
    challenges are updated in place, [target] afterwards is the list
    returned. *)
Fixpoint ensure_answers (target : list challenge) : M (list challenge) :=
  match target with
  | [] => ret []
  | ch :: rest =>
      ch' <- (if lacks_answer ch
              then answer <- verify_challenge ch ;;
                   ret (set_correct_answer ch answer)
              else ret ch) ;;
      rest' <- ensure_answers rest ;;
      ret (ch' :: rest')
  end.

Definition make_row (ch : challenge) (llm_answer : json) (response : str)
  (c : comparison) : M evaluation :=
  expected <- lift (getitem_correct_answer ch) ;;
  ret {| row_id := id ch;
         row_name := name ch;
         row_difficulty := difficulty ch;
         row_expected := expected;
         row_actual := llm_answer;
         raw_response := response;
         row_comparison := c |}.

(** The [except Exception as e] branch of [cmd_test], and the rest of
    the iteration after it. *)
Definition on_failure (ch : challenge) (llm_answer : json) (e : exn)
  : M evaluation :=
  expected <- lift (getitem_correct_answer ch) ;;
  make_row ch llm_answer (lit "ERROR: " ++ exn_text e)
    {| c_correct := false;
       c_expected_count := length expected;
       c_actual_count := 0;
       c_matching := 0;
       c_missing := expected;
       c_extra := [] |}.

(** One iteration of the main loop of [cmd_test] (printing left out). *)
Definition evaluate (provider model : str) (ch : challenge) : M evaluation :=
  let prompt := build_prompt ch in
  fun w =>
    match run_llm provider model SYSTEM_PROMPT prompt w with
    | (Raise e, w1) => on_failure ch (JArray []) e w1
    | (Ok response, w1) =>
        match parse_llm_response response with
        | Raise e => on_failure ch (JArray []) e w1
        | Ok llm_answer =>
            match bind (getitem_correct_answer ch)
                    (fun expected => Py.compare_answers expected llm_answer) with
            | Raise e => on_failure ch llm_answer e w1
            | Ok v => make_row ch llm_answer response (comparison_of_verdict v) w1
            end
        end
    end.

Fixpoint test_loop (provider model : str) (target : list challenge)
  (results : list evaluation) (passed : nat) : M (list evaluation * nat) :=
  match target with
  | [] => ret (results, passed)
  | ch :: rest =>
      r <- evaluate provider model ch ;;
      test_loop provider model rest (results ++ [r])
        (if c_correct (row_comparison r) then S passed else passed)
  end.

(** [cmd_test] up to [print_summary]: the rows and the pass count.
    [challenges] is what [load_challenges] returned; [wanted] is
    [args.challenge]. *)
Definition cmd_test (challenges : list challenge) (wanted : option str)
  (provider model : str) (w : World) : run (list evaluation * nat) * World :=
  match select_target challenges wanted with
  | [] => (SysExit 1, w)
  | target =>
      match ensure_answers target w with
      | (Raise e, w1) => (Uncaught e, w1)
      | (Ok target', w1) =>
          match test_loop provider model target' [] 0 w1 with
          | (Raise e, w2) => (Uncaught e, w2)
          | (Ok out, w2) => (Finished out, w2)
          end
      end
  end.

End Gauntlet.

(** ** The comparator as the specification words it

    Definitions that follow the prose of the specification, to be compared
    with the ones taken from the script. *)

Definition str_eq_dec (a b : str) : {a = b} + {a <> b} :=
  list_eq_dec N.eq_dec a b.

Definition first_not_space (t : str) : Prop :=
  match t with
  | c :: _ => isspace c = false
  | [] => True
  end.

(** [t] is [s] with its surrounding whitespace trimmed. *)
Definition trimmed_of (s t : str) : Prop :=
  exists l r,
    s = l ++ t ++ r
    /\ forallb isspace l = true /\ forallb isspace r = true
    /\ first_not_space t /\ first_not_space (rev t).

(** [n] is [s] trimmed, with a final zero-offset [Z] rewritten to the
    explicit offset. *)
Definition normalized_of (s n : str) : Prop :=
  exists t,
    trimmed_of s t
    /\ ((exists p, t = p ++ lit "Z" /\ n = p ++ lit "+00:00")
        \/ ((forall p, t <> p ++ lit "Z") /\ n = t)).

(** The index positions, over the shorter of the two sequences, at which
    the sequences agree. *)
Definition agree_at (xs ys : list str) (i : nat) : bool :=
  match nth_error xs i, nth_error ys i with
  | Some x, Some y => if str_eq_dec x y then true else false
  | _, _ => false
  end.

Definition spec_matching (xs ys : list str) : nat :=
  length (filter (agree_at xs ys) (seq 0 (Nat.min (length xs) (length ys)))).

(** The entries of [xs] that occur nowhere in [ys]. *)
Definition spec_absent (xs ys : list str) : list str :=
  filter (fun x => if in_dec str_eq_dec x ys then false else true) xs.


(** ** The response parser as the specification words it *)

(** What follows the first occurrence of [p] in [s], if [p] occurs. *)
Fixpoint after_first (s p : str) : option str :=
  if startswith s p then Some (skipn (length p) s)
  else match s with
       | [] => None
       | _ :: r => after_first r p
       end.

(** What precedes the first occurrence of [p] in [s]; all of [s] if [p]
    does not occur. *)
Fixpoint before_first (s p : str) : str :=
  if startswith s p then []
  else match s with
       | [] => []
       | c :: r => c :: before_first r p
       end.

(** The content between the first fence marker and the next marker. *)
Definition spec_first_block (text : str) : option str :=
  match after_first text FENCE with
  | Some rest => Some (before_first rest FENCE)
  | None => None
  end.

(** The four steps of the specification: trim; if a fence marker appears
    keep only the content of the first block; slice from the first opening
    bracket to the last closing bracket; decode. *)
Definition spec_parse_llm_response (response : str) : result json :=
  let text := strip response in
  let text :=
    match spec_first_block text with
    | Some block => block
    | None => text
    end in
  json_loads (slice_brackets text).

Definition is_array (v : json) : bool :=
  match v with
  | JArray _ => true
  | _ => false
  end.

Definition is_string (v : json) : bool :=
  match v with
  | JString _ => true
  | _ => false
  end.

Definition is_string_array (v : json) : bool :=
  match v with
  | JArray items => forallb is_string items
  | _ => false
  end.

(** The lines after a block: none, or a fence line first. *)
Definition closed_or_end (rest : list str) : Prop :=
  match rest with
  | [] => True
  | closing :: _ => is_fence_line closing = true
  end.

Definition quoted (s : str) : str := [DQ] ++ s ++ [DQ].

(** The agent response of end-to-end scenario B. *)
Definition scenario_B_response : str :=
  join [NL]
    [ lit "Here you go:";
      lit "```json";
      lit "[" ++ quoted (lit "2026-03-01T07:00:00Z") ++ lit "]";
      lit "```";
      lit "Hope that helps!" ].

(** A response whose first fenced block is empty, with an array after it. *)
Definition empty_block_response : str :=
  join [NL] [ lit "```"; lit "```"; lit "[" ++ quoted (lit "b") ++ lit "]" ].

(** ** Batches as the specification words them *)

(** The failing row of a challenge: nothing matches, the whole expected
    sequence is missing, and the raw response carries the cause. *)
Definition failing_row (ch : challenge) (expected : list json) (actual : json)
  (e : exn) : evaluation :=
  {| row_id := id ch;
     row_name := name ch;
     row_difficulty := difficulty ch;
     row_expected := expected;
     row_actual := actual;
     raw_response := lit "ERROR: " ++ exn_text e;
     row_comparison :=
       {| c_correct := false;
          c_expected_count := length expected;
          c_actual_count := 0;
          c_matching := 0;
          c_missing := expected;
          c_extra := [] |} |}.

(** The row of a challenge whose answer was compared. *)
Definition compared_row (ch : challenge) (expected : list json) (actual : json)
  (response : str) (v : verdict) : evaluation :=
  {| row_id := id ch;
     row_name := name ch;
     row_difficulty := difficulty ch;
     row_expected := expected;
     row_actual := actual;
     raw_response := response;
     row_comparison := comparison_of_verdict v |}.


Definition has_answer (ch : challenge) : Prop :=
  exists answer, correct_answer ch = Some answer.

Section Batches.

Variable World : Type.
Variable expand_rrule :
  str -> str -> Z -> str -> option str -> option Z -> M World str.
Variable openai_chat : str -> str -> str -> M World str.
Variable anthropic_messages : str -> str -> str -> M World str.

(** The entry of one challenge in the result of [verify_all]: its start
    times, or the error text of the failure its resolution raised. *)
Definition entry_of (outcome : result (list json)) : resolution :=
  match outcome with
  | Ok starts => Starts starts
  | Raise e => ErrorText (lit "ERROR: " ++ exn_text e)
  end.

(** [results] holds one entry per challenge, in order: each challenge is
    resolved in the world the one before it left. *)
Fixpoint resolved_in_turn (challenges : list challenge) (w : World)
  (results : list (str * resolution)) : Prop :=
  match challenges, results with
  | [], [] => True
  | ch :: cs, (key, entry) :: rs =>
      key = id ch
      /\ entry = entry_of (fst (verify_challenge expand_rrule ch w))
      /\ resolved_in_turn cs (snd (verify_challenge expand_rrule ch w)) rs
  | _, _ => False
  end.


End Batches.

(** ** Stand-ins for the external capabilities

    Deterministic stand-ins over a world that counts the calls made. *)

Definition engine_output : str :=
  lit "[{" ++ quoted (lit "start") ++ lit ": "
    ++ quoted (lit "2026-03-01T07:00:00+00:00") ++ lit "}]".

(** A Truth Engine that rejects the rule [FREQ=BOGUS] and expands any
    other rule to one occurrence. *)
Definition sample_engine (rrule dtstart : str) (duration : Z) (tz : str)
  (until : option str) (max_count : option Z) : M nat str :=
  fun calls =>
    if eqb rrule (lit "FREQ=BOGUS")
    then (Raise (Py.ValueError (lit "unsupported rule")), S calls)
    else (Ok engine_output, S calls).

(** A provider that cannot be reached, and one that always answers with
    the response of scenario B. *)
Definition unreachable_llm (model system user : str) : M nat str :=
  fun calls => (Raise (Exn (lit "APIConnectionError") (lit "Connection error.")),
                S calls).

Definition scenario_B_llm (model system user : str) : M nat str :=
  fun calls => (Ok scenario_B_response, S calls).

Definition sample_challenge (ident rule : str) (mode : option str)
  (answer : option (list json)) : challenge :=
  {| id := ident;
     name := lit "Challenge " ++ ident;
     question := lit "When does the event occur?";
     rrule := rule;
     dtstart := lit "2026-03-01T00:00:00";
     timezone := lit "America/Denver";
     duration_minutes := 60;
     until := None;
     exdates := None;
     max_count := Some 1%Z;
     difficulty := lit "Easy";
     why_llms_fail := None;
     verification_mode := mode;
     correct_answer := answer |}.

(** The challenge of end-to-end scenario A. *)
Definition scenario_A_challenge : challenge :=
  sample_challenge (lit "a") (lit "FREQ=BOGUS") (Some (lit "hardcoded"))
    (Some [JString (lit "2026-03-01T07:00:00+00:00")]).

(** Three challenges; the rule of the second is the one the sample engine
    rejects. *)
Definition sample_batch : list challenge :=
  [ sample_challenge (lit "first") (lit "FREQ=DAILY;COUNT=1") None None;
    sample_challenge (lit "second") (lit "FREQ=BOGUS") None None;
    sample_challenge (lit "third") (lit "FREQ=WEEKLY;COUNT=1") None None ].

(** The classes of the failures [json.loads] has. *)
Definition decoder_failures : list str :=
  [lit "JSONDecodeError"; lit "ValueError"; lit "RecursionError"].

(** A result of the decoder that is a value or one of its failures: not
    the failure that belongs to the model alone, the fuel of a loop running
    out. *)
Definition decodes_or_rejects {A} (r : result A) : Prop :=
  match r with
  | Raise e => In (exn_class e) decoder_failures
  | Ok _ => True
  end.

(** A step of the decoder that reads at least one character when it
    succeeds. *)
Definition consumes (scan : str -> result (json * str)) : Prop :=
  forall s v r, scan s = Ok (v, r) -> length r < length s.

(** ** Well-formed answers

    The text of a JSON array of strings as the system prompt asks for it,
    for strings that need no escaping. *)

Definition BACKTICK : char := 0x60%N.

(** A character a JSON string holds as it is (no quote, no backslash, no
    control character) and that is not part of a fence marker. *)
Definition plain_char (c : char) : bool :=
  (negb (c =? 0x22) && negb (c =? 0x5C) && negb (c <=? 0x1F)
   && negb (c =? BACKTICK))%N.

Definition plain (s : str) : bool := forallb plain_char s.

Definition render_strings (l : list str) : str :=
  [LBRACKET] ++ join (lit ", ") (map quoted l) ++ [RBRACKET].

(** ** The other commands *)

Definition RED : str := [0x1B%N] ++ lit "[31m".
Definition RESET : str := [0x1B%N] ++ lit "[0m".

(** [results[key]] *)
Definition getitem_results (results : list (str * resolution)) (key : str)
  : result resolution :=
  match PyDict.get results key with
  | Some entry => Ok entry
  | None => Raise (Py.KeyError key)
  end.

(** [isinstance(answer, str) and answer.startswith("ERROR")] *)
Definition is_error_entry (answer : resolution) : bool :=
  match answer with
  | ErrorText text => startswith text (lit "ERROR")
  | Starts _ => false
  end.

(** The first loop of [cmd_verify] (printing left out): the number of
    challenges whose entry is an error. *)
Fixpoint count_errors (challenges : list challenge)
  (results : list (str * resolution)) (errors : nat) : result nat :=
  match challenges with
  | [] => Ok errors
  | ch :: rest =>
      bind (getitem_results results (id ch))
        (fun answer =>
           count_errors rest results
             (if is_error_entry answer then S errors else errors))
  end.

(** The loop of [cmd_verify] under [if args.output and errors == 0]: every
    challenge whose entry is not a string gets that entry as its answer. *)
Fixpoint refresh_answers (challenges : list challenge)
  (results : list (str * resolution)) : result (list challenge) :=
  match challenges with
  | [] => Ok []
  | ch :: rest =>
      bind (getitem_results results (id ch))
        (fun val =>
           bind (refresh_answers rest results)
             (fun rest' =>
                Ok (match val with
                    | Starts answer => set_correct_answer ch answer
                    | ErrorText _ => ch
                    end :: rest')))
  end.

(** [str(args.challenge)] inside an f-string. *)
Definition wanted_text (wanted : option str) : str :=
  match wanted with
  | Some w => w
  | None => lit "None"
  end.

(** [cmd_prompt]: what it prints, one element for each call of [print],
    and how it ends.  [challenges] is what [load_challenges] returned and
    [wanted] is [args.challenge]; the selection is the one of [cmd_test]. *)
Definition cmd_prompt (challenges : list challenge) (wanted : option str)
  : list str * run unit :=
  match select_target challenges wanted with
  | [] =>
      ([ lit "  " ++ RED ++ lit "Challenge '" ++ wanted_text wanted
           ++ lit "' not found." ++ RESET;
         lit "  Available: " ++ join (lit ", ") (map id challenges) ],
       SysExit 1)
  | target =>
      (flat_map
         (fun ch =>
            [ [NL] ++ repeat 0x3D%N 60;
              lit "Challenge: " ++ name ch ++ lit " (difficulty: "
                ++ difficulty ch ++ lit ")";
              repeat 0x3D%N 60;
              build_prompt ch ])
         target,
       Finished tt)
  end.

Section Verify.

Variable World : Type.
Variable expand_rrule :
  str -> str -> Z -> str -> option str -> option Z -> M World str.

(** Writing the challenges to the file [args.output] names:
    [open(path, "w")], [json.dump(challenges, f, indent=2)] and the
    final newline. *)
Variable write_challenges : str -> list challenge -> M World unit.

(** [cmd_verify] (printing left out).  [challenges] is what
    [load_challenges] returned and [output] is [args.output]. *)
Definition cmd_verify (challenges : list challenge) (output : option str)
  (w : World) : run unit * World :=
  match verify_all expand_rrule challenges w with
  | (Raise e, w1) => (Uncaught e, w1)
  | (Ok results, w1) =>
      match count_errors challenges results 0 with
      | Raise e => (Uncaught e, w1)
      | Ok errors =>
          match output, errors with
          | Some ((_ :: _) as path), O =>
              match refresh_answers challenges results with
              | Raise e => (Uncaught e, w1)
              | Ok refreshed =>
                  match write_challenges path refreshed w1 with
                  | (Raise e, w2) => (Uncaught e, w2)
                  | (Ok _, w2) => (Finished tt, w2)
                  end
              end
          | _, O => (Finished tt, w1)
          | _, S _ => (SysExit 1, w1)
          end
      end
  end.

End Verify.

(** ** What the resolver leaves alone *)

(** Two challenges with the same definition: everything but the stored
    answer. *)
Definition same_definition (a b : challenge) : Prop :=
  id a = id b /\ name a = name b /\ question a = question b
  /\ rrule a = rrule b /\ dtstart a = dtstart b /\ timezone a = timezone b
  /\ duration_minutes a = duration_minutes b /\ until a = until b
  /\ exdates a = exdates b /\ max_count a = max_count b
  /\ difficulty a = difficulty b /\ why_llms_fail a = why_llms_fail b
  /\ verification_mode a = verification_mode b.

(** The stored answer of a challenge that has one. *)
Definition answer_of (ch : challenge) : list json :=
  match correct_answer ch with
  | Some answer => answer
  | None => []
  end.

(** The challenges [cmd_verify] writes: each with the start times its
    entry holds. *)
Definition with_resolved_answers (challenges : list challenge)
  (results : list (str * resolution)) : list challenge :=
  map (fun pair =>
         match snd (snd pair) with
         | Starts answer => set_correct_answer (fst pair) answer
         | ErrorText _ => fst pair
         end)
      (combine challenges results).

(** A provider that always answers with the same text. *)
Definition fixed_llm (response : str) (model system user : str) : M nat str :=
  fun calls => (Ok response, S calls).

(** A stand-in for the file system that counts nothing and always
    succeeds. *)
Definition accepting_writer (path : str) (challenges : list challenge)
  : M nat unit :=
  fun calls => (Ok tt, calls).

(** * Properties *)

(** ** Strings *)

Section StrFacts.

Lemma eqb_eq (a b : str) : eqb a b = true <-> a = b.
Proof.
  revert b; induction a as [|x a IH]; intros [|y b]; simpl;
    try (split; [discriminate | congruence]); [tauto|].
  rewrite andb_true_iff, N.eqb_eq, IH.
  split; [intros [-> ->]; reflexivity | intros [= -> ->]; auto].
Qed.

Lemma eqb_refl (a : str) : eqb a a = true.
Proof. now apply eqb_eq. Qed.

Lemma eqb_neq (a b : str) : eqb a b = false <-> a <> b.
Proof.
  rewrite <- eqb_eq. destruct (eqb a b); split; congruence.
Qed.

Lemma list_eqb_eq (a b : list str) : list_eqb a b = true <-> a = b.
Proof.
  revert b; induction a as [|x a IH]; intros [|y b]; simpl;
    try (split; [discriminate | congruence]); [tauto|].
  rewrite andb_true_iff, eqb_eq, IH.
  split; [intros [-> ->]; reflexivity | intros [= -> ->]; auto].
Qed.

Lemma mem_In (x : str) (l : list str) : mem x l = true <-> In x l.
Proof.
  unfold mem. rewrite existsb_exists. split.
  - intros [y [Hy Heq]]. apply eqb_eq in Heq. now subst.
  - intros H. exists x. split; [assumption | apply eqb_refl].
Qed.

Lemma mem_false (x : str) (l : list str) : mem x l = false <-> ~ In x l.
Proof.
  rewrite <- mem_In. destruct (mem x l); split; congruence.
Qed.

(** [lstrip] removes a run of whitespace and stops at the first
    character that is not whitespace. *)
Lemma lstrip_spec (s : str) :
  exists l, s = l ++ lstrip s
            /\ forallb isspace l = true
            /\ match lstrip s with c :: _ => isspace c = false | [] => True end.
Proof.
  induction s as [|c s (l & Hs & Hl & Hhd)]; simpl.
  - exists []. auto.
  - destruct (isspace c) eqn:E.
    + exists (c :: l). simpl. rewrite E, Hl. repeat split; [congruence | assumption].
    + exists []. simpl. auto.
Qed.

Lemma lstrip_head (s : str) :
  match lstrip s with c :: _ => isspace c = false | [] => True end.
Proof. destruct (lstrip_spec s) as (_ & _ & _ & H). exact H. Qed.

End StrFacts.

(** ** Normalization *)

Section NormalizeFacts.

Lemma forallb_rev (f : char -> bool) (l : str) :
  forallb f (rev l) = forallb f l.
Proof.
  induction l as [|x l IH]; simpl; [reflexivity|].
  rewrite forallb_app, IH. simpl. rewrite andb_true_r. apply andb_comm.
Qed.

Lemma strip_trimmed (s : str) : trimmed_of s (strip s).
Proof.
  unfold strip, rstrip.
  destruct (lstrip_spec s) as (l & Hs & Hl & Hhd).
  destruct (lstrip_spec (rev (lstrip s))) as (r & Hr & Hrs & Hlast).
  set (a := lstrip s) in *. set (b := lstrip (rev a)) in *.
  assert (Ha : a = rev b ++ rev r).
  { rewrite <- rev_app_distr, <- Hr. symmetry. apply rev_involutive. }
  exists l, (rev r). repeat split.
  - rewrite <- Ha. exact Hs.
  - exact Hl.
  - rewrite forallb_rev. exact Hrs.
  - unfold first_not_space. destruct (rev b) as [|c t] eqn:E; [exact I|].
    rewrite Ha in Hhd. simpl in Hhd. exact Hhd.
  - rewrite rev_involutive. exact Hlast.
Qed.

Lemma endswith_char (s : str) (c : char) :
  endswith s [c] = true <-> exists p, s = p ++ [c].
Proof.
  unfold endswith. simpl. split.
  - destruct (rev s) as [|y t] eqn:E; [discriminate|].
    intros H. apply andb_true_iff in H. destruct H as [H _].
    apply N.eqb_eq in H. subst y.
    exists (rev t). rewrite <- (rev_involutive s), E. reflexivity.
  - intros [p ->]. rewrite rev_app_distr. simpl.
    now rewrite N.eqb_refl.
Qed.

Lemma normalize_datetime_spec (s : str) : normalized_of s (normalize_datetime s).
Proof.
  unfold normalize_datetime. exists (strip s). split; [apply strip_trimmed|].
  change (lit "Z") with [90%N].
  destruct (endswith (strip s) [90%N]) eqn:E.
  - left. apply endswith_char in E. destruct E as [p Hp].
    exists p. split; [exact Hp|]. rewrite Hp, removelast_last. reflexivity.
  - right. split; [|reflexivity].
    intros p Hp. rewrite (proj2 (endswith_char _ _)) in E; [discriminate|].
    now exists p.
Qed.

End NormalizeFacts.

(** ** The comparator *)

Section CompareFacts.

Lemma sum_ones {A} (l : list A) : list_sum (map (fun _ => 1) l) = length l.
Proof. induction l; simpl; congruence. Qed.

Lemma filter_map_swap {A B} (f : B -> bool) (g : A -> B) (l : list A) :
  filter f (map g l) = map g (filter (fun x => f (g x)) l).
Proof.
  induction l as [|x l IH]; simpl; [reflexivity|].
  destruct (f (g x)); simpl; congruence.
Qed.

Lemma spec_matching_cons (x y : str) (xs ys : list str) :
  spec_matching (x :: xs) (y :: ys) =
  (if eqb x y then 1 else 0) + spec_matching xs ys.
Proof.
  unfold spec_matching. simpl length at 2 3. simpl Nat.min.
  rewrite <- cons_seq, <- seq_shift. simpl filter.
  rewrite filter_map_swap.
  replace (filter (fun i => agree_at (x :: xs) (y :: ys) (S i)))
    with (filter (agree_at xs ys)) by reflexivity.
  unfold agree_at at 1. cbn [nth_error].
  destruct (str_eq_dec x y) as [Heq|Hne].
  - apply eqb_eq in Heq. rewrite Heq. simpl. now rewrite length_map.
  - apply eqb_neq in Hne. rewrite Hne. simpl. now rewrite length_map.
Qed.

Lemma matching_spec (xs ys : list str) :
  matching (compare_normalized xs ys) = spec_matching xs ys.
Proof.
  unfold compare_normalized; simpl. rewrite sum_ones.
  revert ys; induction xs as [|x xs IH]; intros [|y ys];
    try reflexivity.
  rewrite spec_matching_cons. simpl.
  destruct (eqb x y); simpl; now rewrite IH.
Qed.

Lemma absent_spec (xs ys : list str) :
  filter (fun x => negb (mem x ys)) xs = spec_absent xs ys.
Proof.
  unfold spec_absent. apply filter_ext. intros x.
  destruct (in_dec str_eq_dec x ys) as [Hin|Hnin].
  - apply mem_In in Hin. now rewrite Hin.
  - apply mem_false in Hnin. now rewrite Hnin.
Qed.

Lemma absent_nil_of_incl (xs ys : list str) :
  incl xs ys -> filter (fun x => negb (mem x ys)) xs = [].
Proof.
  intros Hincl. induction xs as [|x xs IH]; simpl; [reflexivity|].
  rewrite (proj2 (mem_In x ys)) by (apply Hincl; now left). simpl.
  apply IH. intros z Hz. apply Hincl. now right.
Qed.

Lemma matching_le (xs ys : list str) :
  matching (compare_normalized xs ys) <= Nat.min (length xs) (length ys).
Proof.
  unfold compare_normalized; simpl. rewrite sum_ones.
  etransitivity; [apply filter_length_le|].
  now rewrite length_combine.
Qed.

End CompareFacts.

Section CompareOrder.

Lemma compare_correct_iff (expected actual : list str) :
  correct (compare_answers expected actual) = true
  <-> map normalize_datetime expected = map normalize_datetime actual.
Proof. unfold compare_answers; simpl. apply list_eqb_eq. Qed.

Lemma rev_neq_of_NoDup (l : list str) :
  2 <= length l -> NoDup l -> l <> rev l.
Proof.
  destruct l as [|x t]; simpl; [lia|].
  intros Hlen Hnd Heq. inversion Hnd as [|? ? Hnotin _]; subst.
  destruct (rev t) as [|y t'] eqn:E.
  - apply (f_equal (@length str)) in E. rewrite length_rev in E.
    simpl in E. lia.
  - simpl in Heq. injection Heq as Hxy _. subst y.
    apply Hnotin, in_rev. rewrite E. now left.
Qed.

Lemma Permutation_filter_bool {A} (f : A -> bool) (l l' : list A) :
  Permutation l l' -> Permutation (filter f l) (filter f l').
Proof.
  induction 1 as [|x l l' _ IH|x y l|l l' l'' _ IH1 _ IH2]; simpl.
  - constructor.
  - destruct (f x); [now constructor | assumption].
  - destruct (f x), (f y); try apply Permutation_refl.
    constructor.
  - now transitivity (filter f l').
Qed.

Lemma mem_Permutation (x : str) (l l' : list str) :
  Permutation l l' -> mem x l = mem x l'.
Proof.
  intros Hp. destruct (mem x l') eqn:E.
  - apply mem_In. apply mem_In in E.
    apply Permutation_in with (l := l'); [now symmetry | assumption].
  - apply mem_false. apply mem_false in E. intros Hin. apply E.
    now apply Permutation_in with (l := l).
Qed.

End CompareOrder.

(** ** Dynamic typing of the comparator *)

Section DynamicFacts.

Lemma comprehension_normalize (l : list str) :
  Py.comprehension Py.normalize_datetime (map JString l)
  = Ok (map normalize_datetime l).
Proof.
  induction l as [|s l IH]; simpl; [reflexivity|].
  now rewrite IH.
Qed.

Lemma py_compare_answers_strings (expected actual : list str) :
  Py.compare_answers (map JString expected) (JArray (map JString actual))
  = Ok (compare_answers expected actual).
Proof.
  unfold Py.compare_answers. rewrite comprehension_normalize. simpl.
  now rewrite comprehension_normalize.
Qed.

End DynamicFacts.

(** ** Claims about the comparator *)

(** C3: [compare_answers] first normalizes every element (surrounding
    whitespace trimmed, a final [Z] rewritten to [+00:00]); [matching] is
    the number of index positions over the shorter sequence where the two
    normalized sequences agree, [missing] the normalized expected entries
    that occur nowhere in the normalized actual sequence, [extra] the
    normalized actual entries that occur nowhere in the normalized expected
    sequence.  On expected A, B, C and actual A, C: matching is 1, missing
    is B, extra is empty and the verdict is not correct. *)
Theorem compare_answers_algorithm :
  (forall s, normalized_of s (normalize_datetime s))
  /\ (forall expected actual,
         let norm_expected := map normalize_datetime expected in
         let norm_actual := map normalize_datetime actual in
         let v := compare_answers expected actual in
         matching v = spec_matching norm_expected norm_actual
         /\ missing v = spec_absent norm_expected norm_actual
         /\ extra v = spec_absent norm_actual norm_expected)
  /\ (let v := compare_answers [lit "A"; lit "B"; lit "C"] [lit "A"; lit "C"] in
      matching v = 1 /\ missing v = [lit "B"] /\ extra v = []
      /\ correct v = false).
Proof.
  split; [exact normalize_datetime_spec|]. split.
  - intros expected actual. cbv zeta. unfold compare_answers.
    rewrite matching_spec. simpl missing. simpl extra.
    rewrite !absent_spec. auto.
  - vm_compute. auto.
Qed.

(** C4: the verdict is order-sensitive.  For a sequence [S] of at least
    two elements whose normalized forms are pairwise distinct, comparing
    [S] with its reverse is not correct although nothing is missing and
    nothing is extra; [correct] holds exactly when the two normalized
    sequences are equal element for element in order. *)
Theorem compare_answers_order_sensitive (S : list str) :
  2 <= length S ->
  NoDup (map normalize_datetime S) ->
  let v := compare_answers S (rev S) in
  correct v = false /\ missing v = [] /\ extra v = []
  /\ (forall expected actual,
         correct (compare_answers expected actual) = true
         <-> map normalize_datetime expected = map normalize_datetime actual).
Proof.
  intros Hlen Hnd v. subst v. repeat split.
  - destruct (correct (compare_answers S (rev S))) eqn:E; [|reflexivity].
    apply compare_correct_iff in E. rewrite map_rev in E.
    exfalso. revert E. apply rev_neq_of_NoDup; [|assumption].
    now rewrite length_map.
  - unfold compare_answers; simpl. apply absent_nil_of_incl.
    rewrite map_rev. intros x Hx. now apply in_rev in Hx.
  - unfold compare_answers; simpl. apply absent_nil_of_incl.
    rewrite map_rev. intros x Hx. now apply in_rev.
  - apply compare_correct_iff.
  - apply compare_correct_iff.
Qed.

Lemma compare_answers_order_sensitive_witness :
  correct (compare_answers
             [lit "2026-03-01T07:00:00Z"; lit "2026-03-08T07:00:00Z"]
             [lit "2026-03-08T07:00:00Z"; lit "2026-03-01T07:00:00Z"]) = false
  /\ missing (compare_answers
                [lit "2026-03-01T07:00:00Z"; lit "2026-03-08T07:00:00Z"]
                [lit "2026-03-08T07:00:00Z"; lit "2026-03-01T07:00:00Z"]) = []
  /\ extra (compare_answers
              [lit "2026-03-01T07:00:00Z"; lit "2026-03-08T07:00:00Z"]
              [lit "2026-03-08T07:00:00Z"; lit "2026-03-01T07:00:00Z"]) = [].
Proof.
  destruct (@compare_answers_order_sensitive
              [lit "2026-03-01T07:00:00Z"; lit "2026-03-08T07:00:00Z"])
    as (H1 & H2 & H3 & _).
  - simpl. lia.
  - vm_compute. repeat constructor; simpl; intuition discriminate.
  - auto.
Defined.

(** C6, as the script has it: permuting [actual] leaves [missing] as it
    is, and leaves in [extra] the same entries, as often, in the order the
    permuted [actual] lists them. *)
Theorem compare_answers_diagnostics_permutation
  (expected actual actual' : list str) :
  Permutation actual actual' ->
  let v := compare_answers expected actual in
  let v' := compare_answers expected actual' in
  missing v' = missing v
  /\ Permutation (extra v') (extra v)
  /\ extra v' = spec_absent (map normalize_datetime actual')
                            (map normalize_datetime expected)
  /\ expected_count v' = expected_count v
  /\ actual_count v' = actual_count v.
Proof.
  intros Hp. cbv zeta. unfold compare_answers; simpl.
  assert (Hn : Permutation (map normalize_datetime actual)
                           (map normalize_datetime actual'))
    by now apply Permutation_map.
  repeat split.
  - apply filter_ext. intros x. f_equal. symmetry. now apply mem_Permutation.
  - apply Permutation_filter_bool. now symmetry.
  - apply absent_spec.
  - rewrite !length_map. symmetry. now apply Permutation_length.
Qed.

Lemma compare_answers_diagnostics_permutation_witness :
  missing (compare_answers [lit "A"] [lit "Y"; lit "X"])
  = missing (compare_answers [lit "A"] [lit "X"; lit "Y"])
  /\ Permutation (extra (compare_answers [lit "A"] [lit "Y"; lit "X"]))
                 (extra (compare_answers [lit "A"] [lit "X"; lit "Y"])).
Proof.
  destruct (@compare_answers_diagnostics_permutation
              [lit "A"] [lit "X"; lit "Y"] [lit "Y"; lit "X"])
    as (H1 & H2 & _).
  - apply perm_swap.
  - split; assumption.
Defined.

(** C6, as stated, fails: with nothing expected, the actual sequence X, Y
    and its permutation Y, X give two different [extra] lists. *)
Lemma compare_answers_extra_follows_actual_order :
  ~ (forall expected actual actual' : list str,
        Permutation actual actual' ->
        missing (compare_answers expected actual')
        = missing (compare_answers expected actual)
        /\ extra (compare_answers expected actual')
           = extra (compare_answers expected actual)).
Proof.
  intros H.
  destruct (H [] [lit "X"; lit "Y"] [lit "Y"; lit "X"] (perm_swap _ _ _))
    as [_ Hextra].
  vm_compute in Hextra. discriminate Hextra.
Qed.

(** C7: [matching] never exceeds the length of the shorter sequence, and
    a correct verdict has nothing missing, nothing extra and sequences of
    equal length. *)
Theorem compare_answers_invariants (expected actual : list str) :
  let v := compare_answers expected actual in
  expected_count v = length expected
  /\ actual_count v = length actual
  /\ matching v <= Nat.min (length expected) (length actual)
  /\ (correct v = true ->
      missing v = [] /\ extra v = [] /\ length expected = length actual).
Proof.
  cbv zeta. unfold compare_answers. split; [|split; [|split]].
  - simpl. apply length_map.
  - simpl. apply length_map.
  - etransitivity; [apply matching_le|]. now rewrite !length_map.
  - simpl. intros Hc. apply list_eqb_eq in Hc. rewrite Hc. repeat split.
    + apply absent_nil_of_incl, incl_refl.
    + apply absent_nil_of_incl, incl_refl.
    + apply (f_equal (@length str)) in Hc. now rewrite !length_map in Hc.
Qed.

(** The correct case of C7 occurs: the two encodings of the zero offset
    compare as correct, with nothing missing and nothing extra. *)
Example compare_answers_correct_case :
  compare_answers [lit " 2026-01-01T00:00:00Z "] [lit "2026-01-01T00:00:00+00:00"]
  = {| correct := true; expected_count := 1; actual_count := 1;
       matching := 1; missing := []; extra := [] |}.
Proof. reflexivity. Qed.

(** C10: on lists of strings neither [normalize_datetime] nor
    [compare_answers] raises, whatever the strings hold; the comparison
    returns the verdict with its six fields. *)
Theorem compare_answers_total (expected actual : list str) :
  (forall s, Py.normalize_datetime (JString s) = Ok (normalize_datetime s))
  /\ Py.compare_answers (map JString expected) (JArray (map JString actual))
     = Ok {| correct := correct (compare_answers expected actual);
             expected_count := length expected;
             actual_count := length actual;
             matching := matching (compare_answers expected actual);
             missing := missing (compare_answers expected actual);
             extra := extra (compare_answers expected actual) |}.
Proof.
  split; [reflexivity|].
  rewrite py_compare_answers_strings.
  unfold compare_answers, compare_normalized. simpl.
  now rewrite !length_map.
Qed.

(** ** The decoder *)

Section DecoderFacts.

Variable doc : str.

Local Open Scope N_scope.

(** [scan_once] unfolded once, whatever the depth left. *)
Lemma scan_once_nil (depth : nat) :
  scan_once doc depth [] = Raise (error_at doc "Expecting value" []).
Proof. destruct depth; reflexivity. Qed.

Lemma scan_once_cons (depth : nat) (c : char) (r : str) :
  scan_once doc depth (c :: r) =
  if c =? 0x22 then
    bind (scanstring doc depth (c :: r) r []) (fun '(v, r') => Ok (JString v, r'))
  else if c =? 0x7B then
    match depth with
    | O => Raise (nested_too_deep "object")
    | S depth' =>
        parse_object doc depth' (scan_once doc depth') (S (length r)) r
    end
  else if c =? 0x5B then
    match depth with
    | O => Raise (nested_too_deep "array")
    | S depth' =>
        parse_array doc depth' (scan_once doc depth') (S (length r)) r
    end
  else if startswith (c :: r) (lit "null") then Ok (JNull, skipn 4 (c :: r))
  else if startswith (c :: r) (lit "true") then Ok (JBool true, skipn 4 (c :: r))
  else if startswith (c :: r) (lit "false")
  then Ok (JBool false, skipn 5 (c :: r))
  else if startswith (c :: r) (lit "NaN")
  then Ok (JNumber (lit "NaN"), skipn 3 (c :: r))
  else if startswith (c :: r) (lit "Infinity")
  then Ok (JNumber (lit "Infinity"), skipn 8 (c :: r))
  else if startswith (c :: r) (lit "-Infinity")
  then Ok (JNumber (lit "-Infinity"), skipn 9 (c :: r))
  else
    match match_number (c :: r) with
    | Some (lexeme, r') => bind (number_of lexeme) (fun v => Ok (v, r'))
    | None => Raise (error_at doc "Expecting value" (c :: r))
    end.
Proof. destruct depth; reflexivity. Qed.

Lemma number_of_ok (lexeme : str) (v : json) :
  number_of lexeme = Ok v -> v = JNumber lexeme.
Proof.
  unfold number_of.
  destruct (is_int_lexeme lexeme && _)%bool; [discriminate | congruence].
Qed.

Lemma object_loop_object remaining scan n s acc v r :
  object_loop doc remaining scan n s acc = Ok (v, r) -> is_array v = false.
Proof.
  revert s acc. induction n as [|n IH]; intros s acc; simpl; [discriminate|].
  destruct s as [|c s]; [discriminate|].
  destruct (c =? 34); [|discriminate].
  destruct (scanstring doc remaining (c :: s) s []) as [[k r1]|e];
    simpl; [|discriminate].
  destruct (skip_ws r1) as [|c2 r2]; [discriminate|].
  destruct (c2 =? 58); [|discriminate].
  destruct (scan (skip_ws r2)) as [[x r3]|e]; simpl; [|discriminate].
  destruct (skip_ws r3) as [|c3 r4]; [discriminate|].
  destruct (c3 =? 125).
  - intros [= <- _]. reflexivity.
  - destruct (c3 =? 44); [apply IH | discriminate].
Qed.

Lemma parse_object_object remaining scan n s v r :
  parse_object doc remaining scan n s = Ok (v, r) -> is_array v = false.
Proof.
  unfold parse_object. destruct (skip_ws s) as [|c t].
  - apply object_loop_object.
  - destruct (c =? 125).
    + intros [= <- _]. reflexivity.
    + apply object_loop_object.
Qed.

(** An array is only ever read at an opening bracket. *)
Lemma scan_once_array depth s v r :
  scan_once doc depth s = Ok (v, r) -> is_array v = true ->
  exists t, s = LBRACKET :: t.
Proof.
  destruct s as [|c s]; [rewrite scan_once_nil; discriminate|].
  rewrite scan_once_cons.
  destruct (c =? 34).
  { destruct (scanstring doc depth (c :: s) s []) as [[x r']|e];
      simpl; [|discriminate].
    intros [= <- _]. discriminate. }
  destruct (c =? 123).
  { destruct depth; [discriminate|].
    intros H Ha. apply parse_object_object in H. congruence. }
  destruct (c =? 91) eqn:E.
  { intros _ _. apply N.eqb_eq in E. subst c. now exists s. }
  repeat match goal with
         | |- context [if ?b then _ else _] =>
             destruct b; [intros [= <- _]; discriminate|]
         end.
  destruct (match_number (c :: s)) as [[lexeme r']|]; [|discriminate].
  destruct (number_of lexeme) as [x|e] eqn:En; simpl; [|discriminate].
  apply number_of_ok in En. subst x. intros [= <- _]. discriminate.
Qed.

Lemma skip_ws_suffix (s : str) : exists l, s = l ++ skip_ws s.
Proof.
  induction s as [|c s [l Hl]]; simpl.
  - now exists [].
  - destruct (is_ws c).
    + exists (c :: l). simpl. congruence.
    + now exists [].
Qed.

End DecoderFacts.

Section SliceBasics.

Lemma json_loads_array (s : str) (v : json) :
  json_loads s = Ok v -> is_array v = true -> In LBRACKET s.
Proof.
  unfold json_loads. destruct (startswith s [65279%N]); [discriminate|].
  destruct (scan_once s scanner_depth (skip_ws s)) as [[x r]|e] eqn:E;
    simpl; [|discriminate].
  destruct (skip_ws r); [|discriminate].
  intros [= ->] Ha.
  destruct (scan_once_array _ _ _ E Ha) as [t Ht].
  destruct (skip_ws_suffix s) as [l Hl].
  rewrite Hl, Ht. apply in_or_app. right. now left.
Qed.

Lemma find_ge (s : str) (c : char) : (-1 <= find s c)%Z.
Proof.
  induction s as [|x s IH]; simpl; [lia|].
  destruct (x =? c)%N; [lia|].
  destruct (find s c <? 0)%Z eqn:E; lia.
Qed.

Lemma find_absent (s : str) (c : char) : find s c = (-1)%Z <-> ~ In c s.
Proof.
  induction s as [|x s IH]; simpl; [tauto|].
  destruct (x =? c)%N eqn:E.
  - apply N.eqb_eq in E. split; [discriminate | intros H; exfalso; auto].
  - apply N.eqb_neq in E. pose proof (find_ge s c).
    destruct (find s c <? 0)%Z eqn:E'.
    + apply Z.ltb_lt in E'. assert (Hf : find s c = (-1)%Z) by lia.
      split; [intros _ [H1|H1]; [auto | now apply IH in H1] | reflexivity].
    + apply Z.ltb_ge in E'. split; [lia|].
      intros Hn. exfalso. assert (Hni : ~ In c s) by tauto.
      apply IH in Hni. lia.
Qed.

Lemma slice_brackets_no_opening (text : str) :
  find text LBRACKET = (-1)%Z -> slice_brackets text = text.
Proof. unfold slice_brackets. intros ->. reflexivity. Qed.

End SliceBasics.

(** ** Failures and fuel

    A failure of [json_loads] is a [JSONDecodeError], the [ValueError] of
    an integer with too many digits or a [RecursionError]; the fuel of the
    model's loops is never used up. *)

Section DecoderFuel.

Variable doc : str.

Local Open Scope N_scope.

Ltac break_step :=
  match goal with
  | |- context [match ?x with _ => _ end] =>
      lazymatch x with
      | context [scanstring] => fail
      | _ => destruct x eqn:?
      end
  end.

Lemma JSONDecodeError_class (msg : string) (d : str) (pos : nat) :
  exn_class (JSONDecodeError msg d pos) = lit "JSONDecodeError".
Proof.
  unfold JSONDecodeError.
  now destruct (line_column (firstn pos d) 1 1).
Qed.

Lemma error_at_failure (msg : string) (rest : str) :
  In (exn_class (error_at doc msg rest)) decoder_failures.
Proof. unfold error_at. rewrite JSONDecodeError_class. now left. Qed.

Lemma raise_errmsg_failure (remaining : nat) (msg : string) (rest : str) :
  In (exn_class (raise_errmsg doc remaining msg rest)) decoder_failures.
Proof.
  destruct remaining as [|[|[|b]]]; simpl;
    first [apply error_at_failure | right; right; now left].
Qed.

Lemma scanstring_bounds (remaining : nat) (opening : str) (n : nat) :
  forall s acc, (length s <= n)%nat ->
    match scanstring doc remaining opening s acc with
    | Ok (_, r) => (length r < length s)%nat
    | Raise e => In (exn_class e) decoder_failures
    end.
Proof.
  induction n as [|n IH]; intros s acc Hn.
  - destruct s; [apply raise_errmsg_failure | simpl in Hn; lia].
  - destruct s as [|c s]; [apply raise_errmsg_failure|].
    cbn [scanstring].
    repeat break_step; subst; try apply raise_errmsg_failure;
      try (simpl; lia);
      match goal with
      | |- context [scanstring doc remaining opening ?x ?y] =>
          let H := fresh in
          assert (H := IH x y);
          destruct (scanstring doc remaining opening x y) as [[? ?]|?];
          [ simpl in *; assert (length x <= n)%nat by (simpl in *; lia);
            specialize (H ltac:(assumption)); lia
          | apply H; simpl in *; lia ]
      end.
Qed.

Lemma scanstring_consumes (remaining : nat) (opening s acc v r : str) :
  scanstring doc remaining opening s acc = Ok (v, r) ->
  (length r < length s)%nat.
Proof.
  intros H.
  pose proof (@scanstring_bounds remaining opening (length s) s acc
                (Nat.le_refl _)) as Hb.
  now rewrite H in Hb.
Qed.

Lemma scanstring_fuel (remaining : nat) (opening s acc : str) :
  decodes_or_rejects (scanstring doc remaining opening s acc).
Proof.
  pose proof (@scanstring_bounds remaining opening (length s) s acc
                (Nat.le_refl _)) as Hb.
  destruct (scanstring doc remaining opening s acc) as [[? ?]|e];
    [exact I | exact Hb].
Qed.

Ltac llia := unfold str, char in *; simpl in *; lia.

Lemma skip_ws_length (s : str) : (length (skip_ws s) <= length s)%nat.
Proof.
  induction s as [|c s IH]; simpl; [lia|].
  destruct (is_ws c); llia.
Qed.

Lemma digits_length (s : str) : (length (snd (digits s)) <= length s)%nat.
Proof.
  induction s as [|c s IH]; simpl; [lia|].
  destruct (is_digit c); [|llia].
  destruct (digits s) as [ds r']. llia.
Qed.

Lemma match_int_consumes (s i r : str) :
  match_int s = Some (i, r) -> (length r < length s)%nat.
Proof.
  unfold match_int.
  assert (Hd : forall t i' r',
             match t with
             | c :: t' =>
                 if (0x31 <=? c) && (c <=? 0x39)
                 then let (ds, r'') := digits t' in Some (i' ++ c :: ds, r'')
                 else if c =? 0x30 then Some (i' ++ [c], t') else None
             | [] => None
             end = Some (i, r') -> (length r' < length t)%nat).
  { intros [|c t'] i' r'; [discriminate|].
    pose proof (digits_length t') as Hl.
    destruct ((0x31 <=? c) && (c <=? 0x39)).
    - destruct (digits t') as [ds r'']. intros [= _ <-]. llia.
    - destruct (c =? 0x30); [|discriminate]. intros [= _ <-]. llia. }
  destruct s as [|c s']; [discriminate|].
  destruct (c =? 0x2D).
  - intros H. apply (Hd s' [c] r) in H. llia.
  - intros H. now apply (Hd (c :: s') [] r) in H.
Qed.

Lemma match_frac_length (s : str) :
  (length (snd (match_frac s)) <= length s)%nat.
Proof.
  unfold match_frac. destruct s as [|dot [|d r]]; simpl; try lia.
  destruct ((dot =? 0x2E) && is_digit d); [|llia].
  pose proof (digits_length r). destruct (digits r). llia.
Qed.

Lemma match_exp_length (s : str) :
  (length (snd (match_exp s)) <= length s)%nat.
Proof.
  unfold match_exp. destruct s as [|e r]; simpl; [lia|].
  destruct ((e =? 0x65) || (e =? 0x45)); [|llia].
  destruct r as [|c [|c' r']]; simpl; try lia.
  - destruct (is_digit c); llia.
  - destruct ((c =? 0x2B) || (c =? 0x2D)).
    + pose proof (digits_length (c' :: r')) as Hl.
      destruct (digits (c' :: r')) as [[|d ds] r2]; llia.
    + pose proof (digits_length (c :: c' :: r')) as Hl.
      destruct (digits (c :: c' :: r')) as [[|d ds] r2]; llia.
Qed.

Lemma match_number_consumes (s lexeme r : str) :
  match_number s = Some (lexeme, r) -> (length r < length s)%nat.
Proof.
  unfold match_number.
  destruct (match_int s) as [[i r0]|] eqn:Ei; [|discriminate].
  apply match_int_consumes in Ei.
  pose proof (match_frac_length r0) as Hf.
  destruct (match_frac r0) as [f r1].
  pose proof (match_exp_length r1) as He.
  destruct (match_exp r1) as [e r2].
  intros [= _ <-]. llia.
Qed.

Lemma number_of_failure (lexeme : str) : decodes_or_rejects (number_of lexeme).
Proof.
  unfold number_of.
  destruct (is_int_lexeme lexeme && _)%bool; [|exact I].
  right. now left.
Qed.

Lemma ok_rest (v v' : json) (r r' : str) :
  @Ok (json * str) (v, r) = Ok (v', r') -> r = r'.
Proof. congruence. Qed.

Lemma array_loop_consumes remaining scan :
  consumes scan ->
  forall n s acc v r,
    array_loop doc remaining scan n s acc = Ok (v, r) ->
    (length r < length s)%nat.
Proof.
  intros Hc. induction n as [|n IH]; intros s acc v r; simpl; [discriminate|].
  destruct (scan s) as [[x r0]|e] eqn:Es; simpl; [|discriminate].
  apply Hc in Es. pose proof (skip_ws_length r0) as Hw.
  destruct (skip_ws r0) as [|c r1]; [discriminate|].
  destruct (c =? 0x5D).
  - intros [= _ <-]. llia.
  - destruct (c =? 0x2C); [|discriminate].
    intros H. apply IH in H. pose proof (skip_ws_length r1). llia.
Qed.

Lemma parse_array_consumes remaining scan :
  consumes scan ->
  forall n s v r,
    parse_array doc remaining scan n s = Ok (v, r) ->
    (length r < length s)%nat.
Proof.
  intros Hc n s v r. unfold parse_array.
  pose proof (skip_ws_length s) as Hw.
  destruct (skip_ws s) as [|c t].
  - intros H. apply (@array_loop_consumes remaining scan Hc) in H. llia.
  - destruct (c =? 0x5D).
    + intros [= _ <-]. llia.
    + intros H. apply (@array_loop_consumes remaining scan Hc) in H. llia.
Qed.

Lemma object_loop_consumes remaining scan :
  consumes scan ->
  forall n s acc v r,
    object_loop doc remaining scan n s acc = Ok (v, r) ->
    (length r < length s)%nat.
Proof.
  intros Hc. induction n as [|n IH]; intros s acc v r; simpl; [discriminate|].
  destruct s as [|c s]; [discriminate|].
  destruct (c =? 0x22); [|discriminate].
  destruct (scanstring doc remaining (c :: s) s []) as [[k r1]|e] eqn:Ek;
    simpl; [|discriminate].
  apply scanstring_consumes in Ek. pose proof (skip_ws_length r1) as Hw1.
  destruct (skip_ws r1) as [|c2 r2]; [discriminate|].
  destruct (c2 =? 0x3A); [|discriminate].
  pose proof (skip_ws_length r2) as Hw2.
  destruct (scan (skip_ws r2)) as [[x r3]|e] eqn:Es; simpl; [|discriminate].
  apply Hc in Es. pose proof (skip_ws_length r3) as Hw3.
  destruct (skip_ws r3) as [|c3 r4]; [discriminate|].
  destruct (c3 =? 0x7D).
  - intros [= _ <-]. llia.
  - destruct (c3 =? 0x2C); [|discriminate].
    intros H. apply IH in H. pose proof (skip_ws_length r4). llia.
Qed.

Lemma parse_object_consumes remaining scan :
  consumes scan ->
  forall n s v r,
    parse_object doc remaining scan n s = Ok (v, r) ->
    (length r < length s)%nat.
Proof.
  intros Hc n s v r. unfold parse_object.
  pose proof (skip_ws_length s) as Hw.
  destruct (skip_ws s) as [|c t].
  - intros H. apply (@object_loop_consumes remaining scan Hc) in H. llia.
  - destruct (c =? 0x7D).
    + intros [= _ <-]. llia.
    + intros H. apply (@object_loop_consumes remaining scan Hc) in H. llia.
Qed.

Lemma scan_once_consumes (depth : nat) : consumes (scan_once doc depth).
Proof.
  induction depth as [|depth IH]; intros s v r;
    (destruct s as [|c s]; [rewrite scan_once_nil; discriminate|]);
    rewrite scan_once_cons;
    (destruct (c =? 0x22);
     [ destruct (scanstring doc _ (c :: s) s []) as [[x r']|e] eqn:Ex;
         simpl; [|discriminate];
       apply scanstring_consumes in Ex; intros [= _ <-]; llia |]);
    (destruct (c =? 0x7B);
     [ first [ discriminate
             | intros H; apply (@parse_object_consumes _ _ IH) in H; llia ] |]);
    (destruct (c =? 0x5B);
     [ first [ discriminate
             | intros H; apply (@parse_array_consumes _ _ IH) in H; llia ] |]);
    repeat match goal with
           | |- context [if startswith ?t ?p then _ else _] =>
               let E := fresh "E" in
               destruct (startswith t p) eqn:E;
               [ clear E; intros H; apply ok_rest in H; rewrite <- H;
                 rewrite length_skipn; cbn [length]; lia
               | clear E ]
           end;
    (destruct (match_number (c :: s)) as [[lexeme r']|] eqn:En; [|discriminate]);
    apply match_number_consumes in En;
    (destruct (number_of lexeme) as [x|e]; simpl; [|discriminate]);
    intros [= _ <-]; exact En.
Qed.

Ltac leaf :=
  first [ exact I | apply raise_errmsg_failure | apply error_at_failure
        | right; right; now left ].

Lemma array_loop_fuel remaining scan :
  consumes scan ->
  (forall s, decodes_or_rejects (scan s)) ->
  forall n s acc,
    (length s < n)%nat ->
    decodes_or_rejects (array_loop doc remaining scan n s acc).
Proof.
  intros Hc Hf. induction n as [|n IH]; intros s acc Hn; [lia|].
  simpl. specialize (Hf s).
  destruct (scan s) as [[x r0]|e] eqn:Es; simpl; [|exact Hf].
  apply Hc in Es. pose proof (skip_ws_length r0) as Hw.
  destruct (skip_ws r0) as [|c r1]; [leaf|].
  destruct (c =? 0x5D); [leaf|].
  destruct (c =? 0x2C); [|leaf].
  pose proof (skip_ws_length r1). apply IH; llia.
Qed.

Lemma object_loop_fuel remaining scan :
  consumes scan ->
  (forall s, decodes_or_rejects (scan s)) ->
  forall n s acc,
    (length s < n)%nat ->
    decodes_or_rejects (object_loop doc remaining scan n s acc).
Proof.
  intros Hc Hf. induction n as [|n IH]; intros s acc Hn; [lia|].
  simpl. destruct s as [|c s]; [leaf|].
  destruct (c =? 0x22); [|leaf].
  pose proof (scanstring_fuel remaining (c :: s) s []) as Hk.
  destruct (scanstring doc remaining (c :: s) s []) as [[k r1]|e] eqn:Ek;
    simpl; [|exact Hk].
  apply scanstring_consumes in Ek. pose proof (skip_ws_length r1) as Hw1.
  destruct (skip_ws r1) as [|c2 r2]; [leaf|].
  destruct (c2 =? 0x3A); [|leaf].
  pose proof (skip_ws_length r2) as Hw2.
  pose proof (Hf (skip_ws r2)) as Hs.
  destruct (scan (skip_ws r2)) as [[x r3]|e] eqn:Es; simpl; [|exact Hs].
  apply Hc in Es. pose proof (skip_ws_length r3) as Hw3.
  destruct (skip_ws r3) as [|c3 r4]; [leaf|].
  destruct (c3 =? 0x7D); [leaf|].
  destruct (c3 =? 0x2C); [|leaf].
  pose proof (skip_ws_length r4). apply IH; llia.
Qed.

Lemma scan_once_fuel (depth : nat) :
  forall s, decodes_or_rejects (scan_once doc depth s).
Proof.
  induction depth as [|depth IH]; intros s;
    (destruct s as [|c s]; [rewrite scan_once_nil; leaf|]);
    rewrite scan_once_cons;
    (destruct (c =? 0x22);
     [ match goal with
       | |- context [scanstring doc ?d ?o ?t ?a] =>
           pose proof (scanstring_fuel d o t a) as Hk;
           destruct (scanstring doc d o t a) as [[x r']|e];
           [exact I | exact Hk]
       end |]);
    pose proof (skip_ws_length s) as Hw.
  1: destruct (c =? 0x7B); [leaf|]; destruct (c =? 0x5B); [leaf|].
  2: destruct (c =? 0x7B);
       [ unfold parse_object; destruct (skip_ws s) as [|c' t] eqn:Et;
         [ apply (@object_loop_fuel _ _ (scan_once_consumes depth) IH); llia
         | destruct (c' =? 0x7D); [leaf|];
           apply (@object_loop_fuel _ _ (scan_once_consumes depth) IH); llia ] |];
     destruct (c =? 0x5B);
       [ unfold parse_array; destruct (skip_ws s) as [|c' t] eqn:Et;
         [ apply (@array_loop_fuel _ _ (scan_once_consumes depth) IH); llia
         | destruct (c' =? 0x5D); [leaf|];
           apply (@array_loop_fuel _ _ (scan_once_consumes depth) IH); llia ] |].
  all: repeat match goal with
         | |- context [if startswith ?t ?p then _ else _] =>
             destruct (startswith t p); [leaf|]
         end;
    (destruct (match_number (c :: s)) as [[lexeme r']|]; [|leaf]);
    pose proof (number_of_failure lexeme) as Hn;
    destruct (number_of lexeme) as [x|e]; [exact I | exact Hn].
Qed.

End DecoderFuel.

(** [json_loads] never fails for want of fuel: its failures are those of
    [json.loads]. *)
Lemma json_loads_fuel (s : str) : decodes_or_rejects (json_loads s).
Proof.
  unfold json_loads. destruct (startswith s [0xFEFF%N]).
  { unfold decodes_or_rejects. rewrite JSONDecodeError_class. now left. }
  pose proof (scan_once_fuel s scanner_depth (skip_ws s)) as Hf.
  destruct (scan_once s scanner_depth (skip_ws s)) as [[obj r]|e];
    simpl; [|exact Hf].
  destruct (skip_ws r); [exact I | apply error_at_failure].
Qed.

(** ** Lines and substrings *)

Section SubstringFacts.

Lemma startswith_prefix (p s : str) :
  startswith s p = true <-> exists r, s = p ++ r.
Proof.
  revert s; induction p as [|x p IH]; intros s; simpl.
  - split; [intros _; now exists s | reflexivity].
  - destruct s as [|y s].
    + split; [discriminate | intros [r Hr]; discriminate].
    + rewrite andb_true_iff, N.eqb_eq, IH. split.
      * intros [-> [r ->]]. now exists r.
      * intros [r [= -> ->]]. split; [reflexivity | now exists r].
Qed.

Lemma contains_infix (p s : str) :
  (exists l r, s = l ++ p ++ r) -> contains s p = true.
Proof.
  intros (l & r & ->). induction l as [|c l IH].
  - assert (Hp : startswith (p ++ r) p = true)
      by (apply startswith_prefix; now exists r).
    simpl app. destruct (p ++ r); simpl; now rewrite Hp.
  - simpl. apply orb_true_iff. right. exact IH.
Qed.

Lemma split_nonempty (s : str) (sep : char) : split s sep <> [].
Proof.
  destruct s as [|c s]; simpl; [discriminate|].
  destruct (c =? sep)%N; [discriminate|].
  destruct (split s sep); discriminate.
Qed.

(** Joining the lines of a text with the separator gives the text back. *)
Lemma join_split (sep : char) (s : str) : join [sep] (split s sep) = s.
Proof.
  induction s as [|c s IH]; simpl; [reflexivity|].
  pose proof (split_nonempty s sep) as Hne.
  destruct (c =? sep)%N eqn:E.
  - apply N.eqb_eq in E. subst c.
    destruct (split s sep) as [|l ls]; [congruence|].
    change (join [sep] ([] :: l :: ls)) with (sep :: join [sep] (l :: ls)).
    now rewrite IH.
  - destruct (split s sep) as [|l ls]; [congruence|].
    destruct ls as [|l' ls]; simpl in *; now rewrite IH.
Qed.

Lemma in_join_infix (sep : str) (parts : list str) (line : str) :
  In line parts -> exists l r, join sep parts = l ++ line ++ r.
Proof.
  induction parts as [|p ps IH]; [intros []|].
  intros [<- | Hin].
  - destruct ps as [|p' ps].
    + exists [], []. simpl. now rewrite app_nil_r.
    + exists [], (sep ++ join sep (p' :: ps)). reflexivity.
  - destruct (IH Hin) as (l & r & Hj).
    destruct ps as [|p' ps]; [destruct Hin|].
    exists (p ++ sep ++ l), r.
    change (join sep (p :: p' :: ps)) with (p ++ sep ++ join sep (p' :: ps)).
    rewrite Hj, <- !app_assoc. reflexivity.
Qed.

(** A text that has a fence line contains the fence marker. *)
Lemma fence_line_contains (text line : str) :
  In line (split text NL) -> is_fence_line line = true ->
  contains text FENCE = true.
Proof.
  intros Hin Hfence.
  destruct (in_join_infix [NL] _ _ Hin) as (l & r & Hj).
  rewrite join_split in Hj.
  destruct (strip_trimmed line) as (l' & r' & Hline & _).
  apply startswith_prefix in Hfence. destruct Hfence as [t Ht].
  apply contains_infix. exists (l ++ l'), (t ++ r' ++ r).
  rewrite Hj, Hline, Ht, <- !app_assoc. reflexivity.
Qed.

End SubstringFacts.

(** ** The fence loop *)

Section FenceFacts.

Lemma fence_loop_in_block (block rest acc : list str) :
  Forall (fun l => is_fence_line l = false) block ->
  closed_or_end rest ->
  fence_loop (block ++ rest) true acc = acc ++ block.
Proof.
  intros Hblock Hrest. revert acc.
  induction Hblock as [|line block Hline _ IH]; intros acc; simpl.
  - rewrite app_nil_r. destruct rest as [|closing rest']; [reflexivity|].
    simpl in *. now rewrite Hrest.
  - rewrite Hline, IH, <- app_assoc. reflexivity.
Qed.

Lemma fence_loop_first_block (pre block rest : list str) (opening : str) :
  Forall (fun l => is_fence_line l = false) pre ->
  is_fence_line opening = true ->
  Forall (fun l => is_fence_line l = false) block ->
  closed_or_end rest ->
  fence_loop (pre ++ opening :: block ++ rest) false [] = block.
Proof.
  intros Hpre Hopen Hblock Hrest.
  induction Hpre as [|line pre Hline _ IH]; simpl.
  - rewrite Hopen. now apply fence_loop_in_block.
  - now rewrite Hline.
Qed.

Lemma fence_loop_no_fence (lines : list str) :
  Forall (fun l => is_fence_line l = false) lines ->
  fence_loop lines false [] = [].
Proof.
  induction 1 as [|line lines Hline _ IH]; simpl; [reflexivity|].
  now rewrite Hline.
Qed.

End FenceFacts.

(** ** Claims about the response parser *)

(** C5: the parser hands back whatever the recovered span decodes to,
    and nothing checks that it is an array of strings, the value its
    signature and its docstring promise.  The response 42 has no bracket:
    the slicing step leaves it alone and the call returns the number 42
    where the claim has it fail.  The response [1] returns an array that
    holds no string. *)
Theorem parse_llm_response_returns_unvalidated :
  find (strip (lit "42")) LBRACKET = (-1)%Z
  /\ rfind (strip (lit "42")) RBRACKET = (-1)%Z
  /\ parse_llm_response (lit "42") = Ok (JNumber (lit "42"))
  /\ is_array (JNumber (lit "42")) = false
  /\ parse_llm_response (lit "[1]") = Ok (JArray [JNumber (lit "1")])
  /\ is_string_array (JArray [JNumber (lit "1")]) = false.
Proof. repeat split; reflexivity. Qed.

(** C9, as the script has it: when the lines of the trimmed response
    are some lines that are not fence lines, a first fence line, the lines
    of the block, and then the end of the text or a second fence line, the
    response contains the fence marker and, if the block has at least one
    line, the parser works on those lines alone, joined and trimmed; if the
    block has no line the parser keeps the whole trimmed text, as it does
    when no line is a fence line.  The response of scenario B parses to
    the one timestamp in its block, which compares as correct with the
    expected answer written with the explicit offset. *)
Theorem parse_llm_response_fenced
  (response : str) (pre block rest : list str) (opening : str) :
  split (strip response) NL = pre ++ opening :: block ++ rest ->
  Forall (fun l => is_fence_line l = false) pre ->
  is_fence_line opening = true ->
  Forall (fun l => is_fence_line l = false) block ->
  closed_or_end rest ->
  contains (strip response) FENCE = true
  /\ parse_llm_response response
     = json_loads (slice_brackets
                     match block with
                     | [] => strip response
                     | _ :: _ => strip (join [NL] block)
                     end)
  /\ (forall other,
         Forall (fun l => is_fence_line l = false) (split (strip other) NL) ->
         parse_llm_response other = json_loads (slice_brackets (strip other)))
  /\ parse_llm_response scenario_B_response
     = Ok (JArray [JString (lit "2026-03-01T07:00:00Z")])
  /\ bind (parse_llm_response scenario_B_response)
          (fun answer =>
             bind (Py.compare_answers
                     [JString (lit "2026-03-01T07:00:00+00:00")] answer)
                  (fun v => Ok (correct v)))
     = Ok true.
Proof.
  intros Hsplit Hpre Hopen Hblock Hrest.
  assert (Hfence : contains (strip response) FENCE = true).
  { apply fence_line_contains with (line := opening); [|exact Hopen].
    rewrite Hsplit. apply in_or_app. right. now left. }
  split; [exact Hfence|]. split; [|split; [|split; reflexivity]].
  - unfold parse_llm_response, strip_fences.
    rewrite Hfence, Hsplit.
    rewrite fence_loop_first_block by assumption.
    destruct block; reflexivity.
  - intros other Hnone. unfold parse_llm_response, strip_fences.
    rewrite fence_loop_no_fence by assumption.
    destruct (contains (strip other) FENCE); reflexivity.
Qed.

Lemma parse_llm_response_fenced_witness :
  parse_llm_response scenario_B_response
  = json_loads (slice_brackets
                  (strip (join [NL]
                            [lit "[" ++ quoted (lit "2026-03-01T07:00:00Z")
                               ++ lit "]"]))).
Proof.
  destruct (@parse_llm_response_fenced scenario_B_response
              [lit "Here you go:"]
              [lit "[" ++ quoted (lit "2026-03-01T07:00:00Z") ++ lit "]"]
              [lit "```"; lit "Hope that helps!"]
              (lit "```json")) as (_ & H & _).
  - reflexivity.
  - repeat constructor.
  - reflexivity.
  - repeat constructor.
  - reflexivity.
  - exact H.
Defined.

(** C9, as stated, fails: in a response whose first fenced block is
    empty the parser keeps the whole text and returns the array written
    after the block, where the content of the first block holds no array
    at all. *)
Lemma parse_llm_response_keeps_text_after_empty_block :
  ~ (forall response,
        contains (strip response) FENCE = true ->
        parse_llm_response response = spec_parse_llm_response response).
Proof.
  intros H. specialize (H empty_block_response eq_refl).
  vm_compute in H. discriminate H.
Qed.

(** ** The resolver and the runner *)

Section RunnerFacts.

Variable World : Type.
Variable expand_rrule :
  str -> str -> Z -> str -> option str -> option Z -> M World str.
Variable openai_chat : str -> str -> str -> M World str.
Variable anthropic_messages : str -> str -> str -> M World str.

Lemma dict_set_fresh {V} (d : list (str * V)) (k : str) (v : V) :
  ~ In k (PyDict.keys d) -> PyDict.set d k v = d ++ [(k, v)].
Proof.
  induction d as [|[k' v'] d IH]; simpl; [reflexivity|].
  intros Hnotin. destruct (eqb k' k) eqn:E.
  - apply eqb_eq in E. exfalso. apply Hnotin. now left.
  - rewrite IH; [reflexivity|]. intros Hin. apply Hnotin. now right.
Qed.

Lemma verify_loop_step (ch : challenge) (rest : list challenge)
  (results : list (str * resolution)) (w : World) :
  verify_loop expand_rrule (ch :: rest) results w
  = verify_loop expand_rrule rest
      (PyDict.set results (id ch)
         (entry_of (fst (verify_challenge expand_rrule ch w))))
      (snd (verify_challenge expand_rrule ch w)).
Proof.
  simpl. unfold bindM, try_except, ret.
  destruct (verify_challenge expand_rrule ch w) as [[answer|e] w1];
    reflexivity.
Qed.

Lemma verify_loop_spec (challenges : list challenge) :
  NoDup (map id challenges) ->
  forall (results : list (str * resolution)) (w : World),
    (forall ch, In ch challenges -> ~ In (id ch) (PyDict.keys results)) ->
    exists new w',
      verify_loop expand_rrule challenges results w = (Ok (results ++ new), w')
      /\ length new = length challenges
      /\ resolved_in_turn expand_rrule challenges w new.
Proof.
  induction challenges as [|ch rest IH]; intros Hnd results w Hfresh.
  - exists [], w. simpl. rewrite app_nil_r. auto.
  - rewrite verify_loop_step.
    simpl in Hnd. apply NoDup_cons_iff in Hnd. destruct Hnd as [Hhd Hnd].
    rewrite dict_set_fresh by (apply Hfresh; now left).
    set (entry := entry_of (fst (verify_challenge expand_rrule ch w))).
    destruct (IH Hnd (results ++ [(id ch, entry)])
                (snd (verify_challenge expand_rrule ch w)))
      as (new & w' & Hrun & Hlen & Hturn).
    + intros ch' Hin. unfold PyDict.keys. rewrite map_app, in_app_iff.
      intros [Hk | [Hk | []]].
      * apply (Hfresh ch'); [now right | exact Hk].
      * simpl in Hk. apply Hhd. rewrite Hk. now apply in_map.
    + exists ((id ch, entry) :: new), w'. repeat split.
      * rewrite Hrun, <- app_assoc. reflexivity.
      * simpl. now rewrite Hlen.
      * exact Hturn.
Qed.

Lemma ensure_answers_spec (target : list challenge) :
  forall (w w1 : World) (target' : list challenge),
    ensure_answers expand_rrule target w = (Ok target', w1) ->
    Forall has_answer target'
    /\ length target' = length target
    /\ map id target' = map id target.
Proof.
  induction target as [|ch rest IH]; intros w w1 target'; simpl.
  - unfold ret. intros [= <- _]. repeat split. constructor.
  - unfold bindM, ret.
    destruct (lacks_answer ch) eqn:Elacks.
    + destruct (verify_challenge expand_rrule ch w) as [[answer|e] w0];
        [|discriminate].
      destruct (ensure_answers expand_rrule rest w0) as [[rest'|e] w2] eqn:Er;
        [|discriminate].
      intros [= <- _]. destruct (IH _ _ _ Er) as (Hall & Hlen & Hids).
      repeat split; simpl; try congruence.
      constructor; [now exists answer | exact Hall].
    + destruct (ensure_answers expand_rrule rest w) as [[rest'|e] w2] eqn:Er;
        [|discriminate].
      intros [= <- _]. destruct (IH _ _ _ Er) as (Hall & Hlen & Hids).
      repeat split; simpl; try congruence.
      constructor; [|exact Hall].
      unfold lacks_answer in Elacks. unfold has_answer.
      destruct (correct_answer ch) as [answer|]; [now exists answer | discriminate].
Qed.

(** What one iteration of the main loop of [cmd_test] records, by the
    step that failed. *)
Lemma evaluate_cases (provider model : str) (ch : challenge)
  (expected : list json) (w : World) :
  correct_answer ch = Some expected ->
  match run_llm openai_chat anthropic_messages provider model
          SYSTEM_PROMPT (build_prompt ch) w with
  | (Raise e, w') =>
      evaluate openai_chat anthropic_messages provider model ch w
      = (Ok (failing_row ch expected (JArray []) e), w')
  | (Ok response, w') =>
      match parse_llm_response response with
      | Raise e =>
          evaluate openai_chat anthropic_messages provider model ch w
          = (Ok (failing_row ch expected (JArray []) e), w')
      | Ok answer =>
          match Py.compare_answers expected answer with
          | Raise e =>
              evaluate openai_chat anthropic_messages provider model ch w
              = (Ok (failing_row ch expected answer e), w')
          | Ok v =>
              evaluate openai_chat anthropic_messages provider model ch w
              = (Ok (compared_row ch expected answer response v), w')
          end
      end
  end.
Proof.
  intros Hanswer. unfold evaluate.
  destruct (run_llm openai_chat anthropic_messages provider model
              SYSTEM_PROMPT (build_prompt ch) w) as [[response|e] w'].
  - destruct (parse_llm_response response) as [answer|e].
    + unfold getitem_correct_answer. rewrite Hanswer. simpl.
      destruct (Py.compare_answers expected answer) as [v|e].
      * unfold make_row, bindM, lift, ret, getitem_correct_answer.
        now rewrite Hanswer.
      * unfold on_failure, make_row, bindM, lift, ret, getitem_correct_answer.
        now rewrite Hanswer.
    + unfold on_failure, make_row, bindM, lift, ret, getitem_correct_answer.
      now rewrite Hanswer.
  - unfold on_failure, make_row, bindM, lift, ret, getitem_correct_answer.
    now rewrite Hanswer.
Qed.

Lemma evaluate_total (provider model : str) (ch : challenge) (w : World) :
  has_answer ch ->
  exists r w',
    evaluate openai_chat anthropic_messages provider model ch w = (Ok r, w')
    /\ row_id r = id ch.
Proof.
  intros [expected Hanswer].
  pose proof (evaluate_cases provider model ch w Hanswer) as H.
  destruct (run_llm openai_chat anthropic_messages provider model
              SYSTEM_PROMPT (build_prompt ch) w) as [[response|e] w'].
  - destruct (parse_llm_response response) as [answer|e].
    + destruct (Py.compare_answers expected answer) as [v|e];
        rewrite H; eauto.
    + rewrite H; eauto.
  - rewrite H; eauto.
Qed.



End RunnerFacts.

(** ** Claims about the resolver and the runner *)

Section RunnerClaims.

Variable World : Type.
Variable expand_rrule :
  str -> str -> Z -> str -> option str -> option Z -> M World str.
Variable openai_chat : str -> str -> str -> M World str.
Variable anthropic_messages : str -> str -> str -> M World str.

(** C8: a challenge in hardcoded mode that carries an answer resolves to
    that answer unchanged.  This holds whatever the Truth Engine is, and
    leaves the world as it was: the engine is not called. *)
Theorem verify_challenge_hardcoded (ch : challenge) (answer : list json)
  (w : World) :
  verification_mode ch = Some (lit "hardcoded") ->
  correct_answer ch = Some answer ->
  verify_challenge expand_rrule ch w = (Ok answer, w).
Proof.
  intros Hmode Hanswer.
  unfold verify_challenge, is_hardcoded, lift, getitem_correct_answer.
  now rewrite Hmode, Hanswer.
Qed.

(** C2: for challenges with pairwise distinct identifiers [verify_all]
    never raises and returns one entry per challenge, in order; each
    challenge is resolved in turn, a failure of its resolution becomes
    its own entry, the text ERROR followed by the text of the failure,
    and the challenges after it are still resolved. *)
Theorem verify_all_isolates (challenges : list challenge) (w : World) :
  NoDup (map id challenges) ->
  exists results w',
    verify_all expand_rrule challenges w = (Ok results, w')
    /\ length results = length challenges
    /\ resolved_in_turn expand_rrule challenges w results.
Proof.
  intros Hnd.
  destruct (@verify_loop_spec World expand_rrule challenges Hnd [] w)
    as (new & w' & Hrun & Hlen & Hturn).
  - intros ch _ [].
  - exists new, w'. auto.
Qed.


End RunnerClaims.

Lemma verify_challenge_hardcoded_witness :
  verify_challenge sample_engine scenario_A_challenge 0
  = (Ok [JString (lit "2026-03-01T07:00:00+00:00")], 0).
Proof.
  apply (@verify_challenge_hardcoded nat sample_engine scenario_A_challenge).
  - reflexivity.
  - reflexivity.
Defined.

Lemma verify_all_isolates_witness :
  exists results calls,
    verify_all sample_engine sample_batch 0 = (Ok results, calls)
    /\ length results = length sample_batch
    /\ resolved_in_turn sample_engine sample_batch 0 results.
Proof.
  apply (@verify_all_isolates nat sample_engine sample_batch 0).
  vm_compute. repeat constructor; simpl; intuition discriminate.
Defined.

(** The batch of three of the specification: the second challenge fails
    to resolve, the first and the third resolve. *)
Example verify_all_sample_batch :
  verify_all sample_engine sample_batch 0
  = (Ok [ (lit "first", Starts [JString (lit "2026-03-01T07:00:00+00:00")]);
          (lit "second", ErrorText (lit "ERROR: unsupported rule"));
          (lit "third", Starts [JString (lit "2026-03-01T07:00:00+00:00")]) ],
     3).
Proof. reflexivity. Qed.




(** * Further properties of the script *)

(** ** [normalize_datetime] *)

Section NormalizeMore.

Lemma lstrip_spaces (l x : str) :
  forallb isspace l = true -> lstrip (l ++ x) = lstrip x.
Proof.
  induction l as [|c l IH]; simpl; [reflexivity|].
  intros H. apply andb_true_iff in H. destruct H as [Hc Hl].
  rewrite Hc. now apply IH.
Qed.

Lemma lstrip_all_space (l : str) : forallb isspace l = true -> lstrip l = [].
Proof.
  intros H. rewrite <- (app_nil_r l). now rewrite lstrip_spaces.
Qed.

Lemma lstrip_nonspace (x y : str) :
  x <> [] -> first_not_space x -> lstrip (x ++ y) = x ++ y.
Proof.
  destruct x as [|c x]; [congruence|]. simpl. intros _ Hc. now rewrite Hc.
Qed.

(** The trimmed form of a string is unique: it is what [strip] returns. *)
Lemma strip_of_trimmed (s t : str) : trimmed_of s t -> strip s = t.
Proof.
  intros (l & r & -> & Hl & Hr & Hfirst & Hlast).
  unfold strip, rstrip. rewrite lstrip_spaces by assumption.
  destruct t as [|c t].
  - simpl. rewrite (lstrip_all_space r Hr). reflexivity.
  - rewrite lstrip_nonspace by (assumption || discriminate).
    rewrite rev_app_distr, lstrip_spaces by (now rewrite forallb_rev).
    assert (Hne : rev (c :: t) <> []).
    { intros E. apply (f_equal (@length char)) in E.
      rewrite length_rev in E. discriminate E. }
    rewrite <- (app_nil_r (rev (c :: t))), lstrip_nonspace by assumption.
    rewrite app_nil_r. apply rev_involutive.
Qed.

Lemma strip_fixed (t : str) :
  first_not_space t -> first_not_space (rev t) -> strip t = t.
Proof.
  intros Hfirst Hlast. apply strip_of_trimmed. exists [], [].
  rewrite app_nil_r. auto.
Qed.

Lemma strip_surrounded (l s r : str) :
  forallb isspace l = true -> forallb isspace r = true ->
  strip (l ++ s ++ r) = strip s.
Proof.
  intros Hl Hr. apply strip_of_trimmed.
  destruct (strip_trimmed s) as (a & b & Hs & Ha & Hb & Hfirst & Hlast).
  exists (l ++ a), (b ++ r). repeat split; try assumption.
  - rewrite Hs at 1. now rewrite <- !app_assoc.
  - now rewrite forallb_app, Hl, Ha.
  - now rewrite forallb_app, Hb, Hr.
Qed.

Lemma endswith_last (p : str) (c d : char) :
  endswith (p ++ [c]) [d] = N.eqb d c.
Proof.
  unfold endswith. rewrite rev_app_distr. simpl. apply andb_true_r.
Qed.

Lemma strip_keeps_tail (t : str) (tail : str) (c : char) :
  isspace c = false ->
  first_not_space (tail ++ [c]) ->
  strip (t ++ tail ++ [c]) = lstrip t ++ tail ++ [c].
Proof.
  intros Hc Htail. apply strip_of_trimmed.
  destruct (lstrip_spec t) as (a & Ht & Ha & Hhd).
  exists a, []. rewrite app_nil_r. repeat split; try assumption.
  - rewrite Ht at 1. now rewrite <- app_assoc.
  - destruct (lstrip t) as [|x u]; [exact Htail | exact Hhd].
  - rewrite !rev_app_distr. simpl. exact Hc.
Qed.

Lemma normalize_datetime_Z (t : str) :
  normalize_datetime (t ++ lit "Z") = lstrip t ++ lit "+00:00".
Proof.
  unfold normalize_datetime.
  assert (Hs : strip (t ++ lit "Z") = lstrip t ++ [90%N])
    by (apply (@strip_keeps_tail t [] 90%N); reflexivity).
  rewrite Hs. change (lit "Z") with [90%N].
  now rewrite endswith_last, removelast_last.
Qed.

Lemma normalize_datetime_offset (t : str) :
  normalize_datetime (t ++ lit "+00:00") = lstrip t ++ lit "+00:00".
Proof.
  unfold normalize_datetime.
  assert (Hs : strip (t ++ lit "+00:00") = lstrip t ++ lit "+00:0" ++ [48%N])
    by (apply (@strip_keeps_tail t (lit "+00:0") 48%N); reflexivity).
  rewrite Hs. change (lit "Z") with [90%N].
  rewrite app_assoc, endswith_last. change (90 =? 48)%N with false.
  now rewrite <- app_assoc.
Qed.

End NormalizeMore.

(** X1: normalizing twice is normalizing once; a normalized timestamp has
    no whitespace around it and never ends in the letter Z. *)
Theorem normalize_datetime_idempotent (s : str) :
  normalize_datetime (normalize_datetime s) = normalize_datetime s
  /\ strip (normalize_datetime s) = normalize_datetime s
  /\ endswith (normalize_datetime s) (lit "Z") = false.
Proof.
  assert (H : strip (normalize_datetime s) = normalize_datetime s
              /\ endswith (normalize_datetime s) (lit "Z") = false).
  { unfold normalize_datetime.
    destruct (strip_trimmed s) as (_ & _ & _ & _ & _ & Hfirst & Hlast).
    change (lit "Z") with [90%N].
    destruct (endswith (strip s) [90%N]) eqn:E.
    - apply endswith_char in E. destruct E as [p Hp].
      rewrite Hp, removelast_last. rewrite Hp in Hfirst. split.
      + apply strip_fixed.
        * destruct p as [|c p]; [reflexivity | exact Hfirst].
        * rewrite rev_app_distr. reflexivity.
      + change (lit "+00:00") with (lit "+00:0" ++ [48%N]).
        rewrite app_assoc. apply endswith_last.
    - split; [now apply strip_fixed | exact E]. }
  destruct H as [Hstrip Hz]. repeat split; try assumption.
  unfold normalize_datetime at 1. now rewrite Hstrip, Hz.
Qed.

(** X2: whitespace around a timestamp does not change its normal form,
    and a timestamp written with the final letter Z has the normal form of
    the same timestamp written with the explicit zero offset. *)
Theorem normalize_datetime_equates (l r s : str) :
  forallb isspace l = true ->
  forallb isspace r = true ->
  normalize_datetime (l ++ s ++ r) = normalize_datetime s
  /\ normalize_datetime (l ++ (s ++ lit "Z") ++ r)
     = normalize_datetime (s ++ lit "+00:00").
Proof.
  intros Hl Hr.
  assert (Hws : forall x, normalize_datetime (l ++ x ++ r) = normalize_datetime x).
  { intros x. unfold normalize_datetime. now rewrite strip_surrounded. }
  split; [apply Hws|].
  now rewrite Hws, normalize_datetime_Z, normalize_datetime_offset.
Qed.

Lemma normalize_datetime_equates_witness :
  normalize_datetime (lit "  " ++ lit "2026-01-01T00:00:00" ++ lit " ")
  = normalize_datetime (lit "2026-01-01T00:00:00")
  /\ normalize_datetime
       (lit "  " ++ (lit "2026-01-01T00:00:00" ++ lit "Z") ++ lit " ")
     = normalize_datetime (lit "2026-01-01T00:00:00" ++ lit "+00:00").
Proof.
  apply (@normalize_datetime_equates (lit "  ") (lit " ")
           (lit "2026-01-01T00:00:00")); reflexivity.
Defined.

(** ** [compare_answers] *)

Section CompareMore.

Lemma matching_count (xs ys : list str) :
  matching (compare_normalized xs ys)
  = length (filter (fun ea => eqb (fst ea) (snd ea)) (combine xs ys)).
Proof. unfold compare_normalized; simpl. apply sum_ones. Qed.

Lemma matching_all_iff (xs ys : list str) :
  length xs = length ys ->
  (matching (compare_normalized xs ys) = length xs <-> xs = ys).
Proof.
  rewrite matching_count. revert ys.
  induction xs as [|x xs IH]; intros [|y ys] Hlen; simpl in *;
    try discriminate; [tauto|].
  injection Hlen as Hlen. specialize (IH ys Hlen).
  pose proof (filter_length_le (fun ea : str * str => eqb (fst ea) (snd ea))
                (combine xs ys)) as Hle.
  rewrite length_combine, <- Hlen, Nat.min_id in Hle.
  destruct (eqb x y) eqn:E; simpl.
  - apply eqb_eq in E. subst y. split.
    + intros [= H]. apply IH in H. now subst.
    + intros [= H]. f_equal. now apply IH.
  - apply eqb_neq in E. split; [lia | congruence].
Qed.

Lemma eqb_sym (a b : str) : eqb a b = eqb b a.
Proof.
  destruct (eqb b a) eqn:E.
  - apply eqb_eq in E. subst. apply eqb_refl.
  - apply eqb_neq. apply eqb_neq in E. congruence.
Qed.

Lemma list_eqb_sym (a b : list str) : list_eqb a b = list_eqb b a.
Proof.
  revert b; induction a as [|x a IH]; intros [|y b]; simpl; try reflexivity.
  now rewrite eqb_sym, IH.
Qed.

Lemma matching_sym (xs ys : list str) :
  matching (compare_normalized xs ys) = matching (compare_normalized ys xs).
Proof.
  rewrite !matching_count. revert ys.
  induction xs as [|x xs IH]; intros [|y ys]; simpl; try reflexivity.
  rewrite (eqb_sym x y). destruct (eqb y x); simpl; now rewrite IH.
Qed.

(** Positions that match and expected entries that are missing are
    different positions of the expected sequence. *)
Lemma matching_missing_le (xs ys m : list str) :
  incl ys m ->
  length (filter (fun ea => eqb (fst ea) (snd ea)) (combine xs ys))
  + length (filter (fun e => negb (mem e m)) xs) <= length xs.
Proof.
  revert ys. induction xs as [|x xs IH]; intros ys Hincl; simpl; [lia|].
  destruct ys as [|y ys].
  - simpl.
    pose proof (filter_length_le (fun e => negb (mem e m)) (x :: xs)) as H.
    simpl in H. exact H.
  - assert (Hys : incl ys m) by (intros z Hz; apply Hincl; now right).
    specialize (IH ys Hys). simpl.
    destruct (eqb x y) eqn:E.
    + apply eqb_eq in E. subst y.
      rewrite (proj2 (mem_In x m)) by (apply Hincl; now left).
      simpl. lia.
    + destruct (negb (mem x m)); simpl; lia.
Qed.

Lemma absent_nil_iff (xs ys : list str) :
  filter (fun x => negb (mem x ys)) xs = [] <-> incl xs ys.
Proof.
  split; [|apply absent_nil_of_incl].
  induction xs as [|x xs IH]; simpl; [intros _ z []|].
  destruct (mem x ys) eqn:E; simpl; [|discriminate].
  intros H z [<- | Hz]; [now apply mem_In | now apply IH].
Qed.

End CompareMore.

(** X3: a verdict is correct exactly when the two sequences have the same
    length and every position matches; comparing a sequence with itself is
    correct, with every position matching and nothing missing or extra. *)
Theorem compare_answers_correct_iff_all_match (expected actual : list str) :
  (correct (compare_answers expected actual) = true
   <-> expected_count (compare_answers expected actual)
       = actual_count (compare_answers expected actual)
       /\ matching (compare_answers expected actual)
          = expected_count (compare_answers expected actual))
  /\ correct (compare_answers expected expected) = true
  /\ matching (compare_answers expected expected) = length expected
  /\ missing (compare_answers expected expected) = []
  /\ extra (compare_answers expected expected) = [].
Proof.
  assert (Hiff : forall xs ys,
             correct (compare_normalized xs ys) = true
             <-> length xs = length ys
                 /\ matching (compare_normalized xs ys) = length xs).
  { intros xs ys. change (correct (compare_normalized xs ys)) with (list_eqb xs ys).
    rewrite list_eqb_eq. split.
    - intros ->. split; [reflexivity|]. now apply matching_all_iff.
    - intros [Hlen Hm]. now apply matching_all_iff. }
  split; [apply Hiff|].
  assert (Hrefl : correct (compare_answers expected expected) = true)
    by (apply compare_correct_iff; reflexivity).
  split; [exact Hrefl|]. split; [|split].
  - apply Hiff in Hrefl. destruct Hrefl as [_ Hm].
    unfold compare_answers. now rewrite Hm, length_map.
  - apply absent_nil_of_incl, incl_refl.
  - apply absent_nil_of_incl, incl_refl.
Qed.

(** X4: exchanging the two arguments exchanges [missing] with [extra] and
    the two counts, and keeps [correct] and [matching]. *)
Theorem compare_answers_swap (expected actual : list str) :
  correct (compare_answers actual expected)
  = correct (compare_answers expected actual)
  /\ matching (compare_answers actual expected)
     = matching (compare_answers expected actual)
  /\ missing (compare_answers actual expected)
     = extra (compare_answers expected actual)
  /\ extra (compare_answers actual expected)
     = missing (compare_answers expected actual)
  /\ expected_count (compare_answers actual expected)
     = actual_count (compare_answers expected actual)
  /\ actual_count (compare_answers actual expected)
     = expected_count (compare_answers expected actual).
Proof.
  unfold compare_answers. repeat split.
  - apply list_eqb_sym.
  - apply matching_sym.
Qed.

(** X5: a position that matches is not missing and not extra: matching
    plus the number of missing entries is at most the expected count, and
    matching plus the number of extra entries is at most the actual
    count. *)
Theorem compare_answers_partition_bounds (expected actual : list str) :
  matching (compare_answers expected actual)
  + length (missing (compare_answers expected actual))
  <= expected_count (compare_answers expected actual)
  /\ matching (compare_answers expected actual)
     + length (extra (compare_answers expected actual))
     <= actual_count (compare_answers expected actual).
Proof.
  unfold compare_answers. split.
  - rewrite matching_count. apply matching_missing_le, incl_refl.
  - rewrite matching_sym, matching_count.
    apply matching_missing_le, incl_refl.
Qed.

(** X6: nothing is missing and nothing is extra exactly when the two
    normalized sequences hold the same entries, whatever their order and
    however often each occurs. *)
Theorem compare_answers_no_diagnostics_iff (expected actual : list str) :
  missing (compare_answers expected actual) = []
  /\ extra (compare_answers expected actual) = []
  <-> (forall x, In x (map normalize_datetime expected)
                 <-> In x (map normalize_datetime actual)).
Proof.
  unfold compare_answers; simpl. rewrite !absent_nil_iff. split.
  - intros [H1 H2] x. split; [apply H1 | apply H2].
  - intros H. split; intros x Hx; now apply H.
Qed.

(** ** [parse_llm_response] on well-formed answers *)

Section SliceFacts.

Lemma find_first (pre rest : str) (c : char) :
  ~ In c pre -> find (pre ++ c :: rest) c = Z.of_nat (length pre).
Proof.
  induction pre as [|x pre IH]; simpl; intros Hnotin.
  - now rewrite N.eqb_refl.
  - destruct (x =? c)%N eqn:E.
    + apply N.eqb_eq in E. exfalso. apply Hnotin. now left.
    + rewrite IH by (intros H; apply Hnotin; now right).
      destruct (Z.of_nat (length pre) <? 0)%Z eqn:El; [|lia].
      apply Z.ltb_lt in El. lia.
Qed.

Lemma rfind_last (x post : str) (c : char) :
  ~ In c post -> rfind (x ++ c :: post) c = Z.of_nat (length x).
Proof.
  intros Hnotin. unfold rfind.
  rewrite rev_app_distr. simpl rev. rewrite <- app_assoc. simpl app.
  rewrite find_first by (intros H; apply Hnotin; now apply in_rev).
  rewrite length_rev, length_app. simpl length.
  destruct (Z.of_nat (length post) <? 0)%Z eqn:El.
  - apply Z.ltb_lt in El. lia.
  - lia.
Qed.

Lemma firstn_through (mid post : str) (c : char) :
  firstn (S (length mid)) (mid ++ c :: post) = mid ++ [c].
Proof.
  induction mid as [|x mid IH]; [reflexivity|].
  cbn [length app]. rewrite firstn_cons. now rewrite IH.
Qed.

(** The slice from the first opening bracket to the last closing one. *)
Lemma slice_brackets_span (pre mid post : str) :
  ~ In LBRACKET pre -> ~ In RBRACKET post ->
  slice_brackets (pre ++ LBRACKET :: mid ++ RBRACKET :: post)
  = LBRACKET :: mid ++ [RBRACKET].
Proof.
  intros Hpre Hpost. unfold slice_brackets.
  rewrite find_first by assumption.
  replace (pre ++ LBRACKET :: mid ++ RBRACKET :: post)
    with ((pre ++ LBRACKET :: mid) ++ RBRACKET :: post)
    by (now rewrite <- app_assoc).
  rewrite rfind_last by assumption.
  rewrite length_app. simpl length.
  destruct (Z.of_nat (length pre) =? -1)%Z eqn:E1;
    [apply Z.eqb_eq in E1; lia|].
  destruct (Z.of_nat (length pre + S (length mid)) =? -1)%Z eqn:E2;
    [apply Z.eqb_eq in E2; lia|].
  simpl negb. cbv iota. unfold slice.
  rewrite Nat2Z.id.
  replace (Z.to_nat (Z.of_nat (length pre + S (length mid)) + 1
                     - Z.of_nat (length pre)))
    with (S (S (length mid))) by lia.
  rewrite <- app_assoc. rewrite skipn_app, skipn_all, Nat.sub_diag.
  cbn [app skipn]. rewrite firstn_cons. cbn [andb].
  f_equal. apply firstn_through.
Qed.

End SliceFacts.

Section RenderFacts.

Variable doc : str.

Local Open Scope N_scope.

Lemma plain_cons (c : char) (x : str) :
  plain (c :: x) = true ->
  (c =? 0x22) = false /\ (c =? 0x5C) = false /\ (c <=? 0x1F) = false
  /\ (c =? BACKTICK) = false /\ plain x = true.
Proof.
  unfold plain; simpl. unfold plain_char.
  rewrite !andb_true_iff, !negb_true_iff. tauto.
Qed.

(** A string that needs no escaping is read as it is, up to its closing
    quote. *)
Lemma scanstring_plain (remaining : nat) (opening x tail : str) :
  plain x = true ->
  forall acc,
    scanstring doc remaining opening (x ++ DQ :: tail) acc
    = Ok (rev acc ++ x, tail).
Proof.
  induction x as [|c x IH]; intros Hp acc.
  - simpl. now rewrite app_nil_r.
  - apply plain_cons in Hp. destruct Hp as (E1 & E2 & E3 & _ & Hx).
    cbn [app]. simpl scanstring. rewrite E1, E2, E3.
    rewrite (IH Hx). simpl rev. now rewrite <- app_assoc.
Qed.

Lemma scan_once_string (depth : nat) (x tail : str) :
  plain x = true ->
  scan_once doc depth (quoted x ++ tail) = Ok (JString x, tail).
Proof.
  intros Hp. unfold quoted. cbn [app]. rewrite scan_once_cons.
  change (DQ =? 34) with true. cbv iota.
  rewrite <- app_assoc. cbn [app].
  now rewrite scanstring_plain.
Qed.

Lemma join_cons_cons (sep p q : str) (ps : list str) :
  join sep (p :: q :: ps) = p ++ sep ++ join sep (q :: ps).
Proof. reflexivity. Qed.

(** The space after a comma is skipped and the next element begins. *)
Lemma skip_ws_space (y : str) (l : list str) (tail : str) :
  skip_ws (32 :: join (lit ", ") (map quoted (y :: l)) ++ tail)
  = join (lit ", ") (map quoted (y :: l)) ++ tail.
Proof. destruct l; reflexivity. Qed.

Lemma array_loop_render (remaining depth : nat) (l : list str) :
  forall (n : nat) (x : str) (acc : list json) (rest : str),
    plain x = true ->
    Forall (fun s => plain s = true) l ->
    (length l < n)%nat ->
    array_loop doc remaining (scan_once doc depth) n
      (join (lit ", ") (map quoted (x :: l)) ++ RBRACKET :: rest) acc
    = Ok (JArray (rev acc ++ map JString (x :: l)), rest).
Proof.
  induction l as [|y l IH]; intros n x acc rest Hx Hl Hn.
  - destruct n as [|n]; [simpl in Hn; lia|].
    cbn [map join array_loop].
    rewrite scan_once_string by assumption. cbn [bind].
    cbn [skip_ws]. change (is_ws RBRACKET) with false. cbv iota.
    change (RBRACKET =? 93) with true. cbv iota. reflexivity.
  - destruct n as [|n]; [simpl in Hn; lia|].
    inversion Hl as [|? ? Hy Hl']; subst.
    cbn [map]. rewrite join_cons_cons, <- !app_assoc.
    cbn [array_loop]. rewrite scan_once_string by assumption. cbn [bind].
    change (quoted y :: map quoted l) with (map quoted (y :: l)).
    lazymatch goal with
    | |- context [skip_ws (lit ", " ++ ?t)] =>
        change (skip_ws (lit ", " ++ t)) with (44 :: 32 :: t)
    end.
    change (44 =? 93) with false. change (44 =? 44) with true. cbv iota.
    rewrite skip_ws_space.
    rewrite (IH n y (JString x :: acc) rest) by (assumption || (simpl in *; lia)).
    cbn [rev map]. now rewrite <- app_assoc.
Qed.

Lemma length_join_quoted (sep : str) (l : list str) :
  (length l <= length (join sep (map quoted l)))%nat.
Proof.
  induction l as [|x l IH]; [simpl; lia|].
  destruct l as [|y l].
  - simpl. unfold str, char. rewrite length_app. simpl. lia.
  - cbn [map] in *. rewrite join_cons_cons.
    unfold str, char in *. rewrite !length_app.
    assert (Hq : (1 <= length (quoted x))%nat) by (unfold quoted; simpl; lia).
    cbn [length] in *. unfold str, char in *. lia.
Qed.

Lemma join_quoted_head (x : str) (l : list str) :
  exists t, join (lit ", ") (map quoted (x :: l)) = DQ :: t.
Proof. destruct l; cbn [map join]; unfold quoted; cbn [app]; eauto. Qed.

Lemma parse_array_render (remaining depth n : nat) (x : str) (l : list str)
  (rest : str) :
  plain x = true ->
  Forall (fun s => plain s = true) l ->
  (length l < n)%nat ->
  parse_array doc remaining (scan_once doc depth) n
    (join (lit ", ") (map quoted (x :: l)) ++ RBRACKET :: rest)
  = Ok (JArray (map JString (x :: l)), rest).
Proof.
  intros Hx Hl Hn. unfold parse_array.
  pose proof (@array_loop_render remaining depth l n x [] rest Hx Hl Hn)
    as Hloop.
  cbn [rev app] in Hloop. rewrite <- Hloop.
  destruct (join_quoted_head x l) as [t Ht]. rewrite Ht. reflexivity.
Qed.

(** With room for one level of nesting, the scanner reads the rendering
    of a list of plain strings back. *)
Lemma scan_once_render (depth : nat) (l : list str) (rest : str) :
  Forall (fun s => plain s = true) l ->
  scan_once doc (S depth) (render_strings l ++ rest)
  = Ok (JArray (map JString l), rest).
Proof.
  intros Hl. unfold render_strings. rewrite <- !app_assoc.
  cbn [app]. rewrite scan_once_cons.
  change (LBRACKET =? 34) with false. change (LBRACKET =? 123) with false.
  change (LBRACKET =? 91) with true. cbv iota.
  destruct l as [|x l]; [reflexivity|].
  inversion Hl as [|? ? Hx Hl']; subst.
  pose proof (length_join_quoted (lit ", ") (x :: l)) as Hlen.
  rewrite parse_array_render; try assumption; [reflexivity|].
  unfold str, char in *. rewrite length_app.
  cbn [length] in Hlen |- *. unfold PyStr.str, PyStr.char in *. lia.
Qed.

End RenderFacts.

(** [json.loads] reads the rendering of a list of plain strings back. *)
Lemma json_loads_render (l : list str) :
  Forall (fun s => plain s = true) l ->
  json_loads (render_strings l) = Ok (JArray (map JString l)).
Proof.
  intros Hl. unfold json_loads.
  change (startswith (render_strings l) [65279%N]) with false. cbv iota.
  change (skip_ws (render_strings l)) with (render_strings l).
  pose proof (@scan_once_render (render_strings l) (pred scanner_depth) l []
                Hl) as Hscan.
  rewrite app_nil_r in Hscan.
  change (S (pred scanner_depth)) with scanner_depth in Hscan.
  rewrite Hscan. reflexivity.
Qed.

Section ProseFacts.

Lemma contains_true_infix (p s : str) :
  contains s p = true -> exists l r, s = l ++ p ++ r.
Proof.
  induction s as [|c s IH]; simpl.
  - rewrite orb_false_r. intros H. apply startswith_prefix in H.
    destruct H as [r Hr]. now exists [], r.
  - intros H. apply orb_true_iff in H. destruct H as [H | H].
    + apply startswith_prefix in H. destruct H as [r Hr]. now exists [], r.
    + destruct (IH H) as (l & r & ->). now exists (c :: l), r.
Qed.

Lemma no_backtick_no_fence (s : str) :
  ~ In BACKTICK s -> contains s FENCE = false.
Proof.
  intros Hnotin. destruct (contains s FENCE) eqn:E; [|reflexivity].
  exfalso. apply contains_true_infix in E. destruct E as (l & r & ->).
  apply Hnotin, in_or_app. right. now left.
Qed.

Lemma rstrip_spec (s : str) :
  exists b, s = rstrip s ++ b
            /\ forallb isspace b = true
            /\ first_not_space (rev (rstrip s)).
Proof.
  unfold rstrip. destruct (lstrip_spec (rev s)) as (a & Hs & Ha & Hhd).
  exists (rev a). repeat split.
  - rewrite <- rev_app_distr, <- Hs. symmetry. apply rev_involutive.
  - now rewrite forallb_rev.
  - rewrite rev_involutive. exact Hhd.
Qed.

Lemma in_lstrip (c : char) (s : str) : In c (lstrip s) -> In c s.
Proof.
  destruct (lstrip_spec s) as (a & Hs & _). intros H. rewrite Hs.
  apply in_or_app. now right.
Qed.

Lemma in_rstrip (c : char) (s : str) : In c (rstrip s) -> In c s.
Proof.
  destruct (rstrip_spec s) as (b & Hs & _). intros H. rewrite Hs.
  apply in_or_app. now left.
Qed.

(** Trimming a text whose middle starts and ends with characters that are
    not whitespace trims what is before and what is after the middle. *)
Lemma strip_around (a b : str) (c d : char) (mid : str) :
  isspace c = false -> isspace d = false ->
  strip (a ++ (c :: mid ++ [d]) ++ b)
  = lstrip a ++ (c :: mid ++ [d]) ++ rstrip b.
Proof.
  intros Hc Hd. apply strip_of_trimmed.
  destruct (lstrip_spec a) as (a0 & Ha & Ha0 & Hhd).
  destruct (rstrip_spec b) as (b0 & Hb & Hb0 & Hlast).
  exists a0, b0. repeat split; try assumption.
  - rewrite Ha at 1. rewrite Hb at 1. now rewrite <- !app_assoc.
  - destruct (lstrip a); [exact Hc | exact Hhd].
  - rewrite !rev_app_distr.
    destruct (rev (rstrip b)) as [|y t]; [|exact Hlast].
    simpl. rewrite rev_app_distr. simpl. exact Hd.
Qed.

Lemma in_join (c : char) (sep : str) (parts : list str) :
  In c (join sep parts) -> In c sep \/ exists p, In p parts /\ In c p.
Proof.
  induction parts as [|p ps IH]; [intros []|].
  destruct ps as [|q ps].
  - simpl. intros H. right. exists p. auto.
  - rewrite join_cons_cons. intros H.
    apply in_app_or in H. destruct H as [H | H].
    + right. exists p. split; [now left | exact H].
    + apply in_app_or in H. destruct H as [H | H]; [now left|].
      destruct (IH H) as [Hs | (p' & Hp' & Hc)]; [now left|].
      right. exists p'. split; [now right | exact Hc].
Qed.

Lemma plain_no_backtick (s : str) : plain s = true -> ~ In BACKTICK s.
Proof.
  unfold plain. intros Hp Hin.
  rewrite forallb_forall in Hp. specialize (Hp _ Hin).
  discriminate Hp.
Qed.

Lemma render_no_backtick (l : list str) :
  Forall (fun s => plain s = true) l -> ~ In BACKTICK (render_strings l).
Proof.
  intros Hl Hin. unfold render_strings in Hin.
  apply in_app_or in Hin. destruct Hin as [[H | []] | Hin]; [discriminate H|].
  apply in_app_or in Hin. destruct Hin as [Hin | [H | []]]; [|discriminate H].
  apply in_join in Hin. destruct Hin as [[H | [H | []]] | (p & Hp & Hc)];
    try discriminate H.
  apply in_map_iff in Hp. destruct Hp as (s & <- & Hs).
  rewrite Forall_forall in Hl. specialize (Hl s Hs).
  unfold quoted in Hc.
  apply in_app_or in Hc. destruct Hc as [[H | []] | Hc]; [discriminate H|].
  apply in_app_or in Hc. destruct Hc as [Hc | [H | []]]; [|discriminate H].
  now apply (@plain_no_backtick s Hl).
Qed.

Lemma render_fixed_by_parser_steps (l : list str) :
  Forall (fun s => plain s = true) l ->
  strip (render_strings l) = render_strings l
  /\ is_fence_line (render_strings l) = false
  /\ slice_brackets (render_strings l) = render_strings l.
Proof.
  intros Hl.
  assert (Hstrip : strip (render_strings l) = render_strings l)
    by (apply strip_fixed; unfold render_strings;
        [reflexivity | rewrite !rev_app_distr; reflexivity]).
  repeat split.
  - exact Hstrip.
  - unfold is_fence_line. rewrite Hstrip. reflexivity.
  - unfold render_strings. cbn [app].
    apply (@slice_brackets_span [] _ []); intros [].
Qed.

End ProseFacts.

(** X7: the bracket step keeps the text from the first opening bracket
    to the last closing bracket, both included; it keeps the whole text
    when either bracket is absent, and nothing at all when the last
    closing bracket comes before the first opening one, which the decoder
    then rejects. *)
Theorem slice_brackets_cases :
  (forall pre mid post,
      ~ In LBRACKET pre -> ~ In RBRACKET post ->
      slice_brackets (pre ++ LBRACKET :: mid ++ RBRACKET :: post)
      = LBRACKET :: mid ++ [RBRACKET])
  /\ (forall text,
         ~ In LBRACKET text \/ ~ In RBRACKET text ->
         slice_brackets text = text)
  /\ (forall a b c,
         ~ In LBRACKET a -> ~ In LBRACKET b ->
         ~ In RBRACKET b -> ~ In RBRACKET c ->
         slice_brackets (a ++ RBRACKET :: b ++ LBRACKET :: c) = [])
  /\ json_loads [] = Raise (JSONDecodeError "Expecting value" [] 0).
Proof.
  split; [exact slice_brackets_span|]. split; [|split; [|reflexivity]].
  - intros text [H | H]; unfold slice_brackets.
    + apply find_absent in H. now rewrite H.
    + assert (Hr : rfind text RBRACKET = (-1)%Z).
      { unfold rfind.
        assert (Hf : find (rev text) RBRACKET = (-1)%Z)
          by (apply find_absent; intros Hin; apply H; now apply in_rev).
        now rewrite Hf. }
      rewrite Hr. now rewrite andb_false_r.
  - intros a b c Ha Hb Hb' Hc. unfold slice_brackets.
    replace (a ++ RBRACKET :: b ++ LBRACKET :: c)
      with ((a ++ RBRACKET :: b) ++ LBRACKET :: c)
      by (now rewrite <- app_assoc).
    rewrite find_first.
    2:{ intros Hin. apply in_app_or in Hin.
        destruct Hin as [Hin | [Hin | Hin]]; [auto | discriminate Hin | auto]. }
    replace ((a ++ RBRACKET :: b) ++ LBRACKET :: c)
      with (a ++ RBRACKET :: (b ++ LBRACKET :: c))
      by (now rewrite <- app_assoc).
    rewrite rfind_last.
    2:{ intros Hin. apply in_app_or in Hin.
        destruct Hin as [Hin | [Hin | Hin]]; [auto | discriminate Hin | auto]. }
    unfold slice. rewrite length_app. cbn [length].
    replace (Z.to_nat (Z.of_nat (length a) + 1
                       - Z.of_nat (length a + S (length b))))
      with 0 by lia.
    destruct (Z.of_nat (length a + S (length b)) =? -1)%Z eqn:E1;
      [apply Z.eqb_eq in E1; lia|].
    destruct (Z.of_nat (length a) =? -1)%Z eqn:E2;
      [apply Z.eqb_eq in E2; lia|].
    reflexivity.
Qed.

(** The text the parser hands to the decoder when an array stands in
    prose: the array alone. *)
Lemma recovered_span_in_prose (pre post : str) (l : list str) :
  Forall (fun s => plain s = true) l ->
  ~ In LBRACKET pre -> ~ In BACKTICK pre ->
  ~ In RBRACKET post -> ~ In BACKTICK post ->
  slice_brackets (strip_fences (strip (pre ++ render_strings l ++ post)))
  = render_strings l.
Proof.
  intros Hl Hpre Hpre' Hpost Hpost'.
  pose proof (render_no_backtick Hl) as Hrender.
  unfold render_strings in *. cbn [app] in *.
  set (mid := join (lit ", ") (map quoted l)) in *.
  change (pre ++ LBRACKET :: (mid ++ [RBRACKET]) ++ post)
    with (pre ++ (LBRACKET :: mid ++ [RBRACKET]) ++ post).
  rewrite strip_around by reflexivity.
  assert (Hfence : contains (lstrip pre ++ (LBRACKET :: mid ++ [RBRACKET])
                               ++ rstrip post) FENCE = false).
  { apply no_backtick_no_fence. intros Hin.
    apply in_app_or in Hin. destruct Hin as [Hin | Hin];
      [now apply Hpre', in_lstrip|].
    apply in_app_or in Hin. destruct Hin as [Hin | Hin];
      [now apply Hrender | now apply Hpost', in_rstrip]. }
  unfold strip_fences. rewrite Hfence.
  replace (lstrip pre ++ (LBRACKET :: mid ++ [RBRACKET]) ++ rstrip post)
    with (lstrip pre ++ LBRACKET :: mid ++ RBRACKET :: rstrip post)
    by (cbn [app]; now rewrite <- app_assoc).
  apply slice_brackets_span.
  - intros Hin. now apply Hpre, in_lstrip.
  - intros Hin. now apply Hpost, in_rstrip.
Qed.

(** X8: a JSON array of strings that need no escaping, written as the
    system prompt shows it, is recovered whole from a response that wraps
    it in prose, whatever the prose, as long as no opening bracket comes
    before the array, no closing bracket after it, and no backtick
    anywhere. *)
Theorem parse_llm_response_array_in_prose (pre post : str) (l : list str) :
  Forall (fun s => plain s = true) l ->
  ~ In LBRACKET pre -> ~ In BACKTICK pre ->
  ~ In RBRACKET post -> ~ In BACKTICK post ->
  parse_llm_response (pre ++ render_strings l ++ post)
  = Ok (JArray (map JString l)).
Proof.
  intros Hl Hpre Hpre' Hpost Hpost'.
  unfold parse_llm_response.
  rewrite recovered_span_in_prose by assumption.
  now apply json_loads_render.
Qed.

Lemma parse_llm_response_array_in_prose_witness :
  parse_llm_response
    (lit "  Sure, here it is: "
       ++ render_strings [lit "2026-03-01T07:00:00+00:00";
                          lit "2026-03-08T07:00:00+00:00"]
       ++ lit " (two occurrences). ")
  = Ok (JArray (map JString [lit "2026-03-01T07:00:00+00:00";
                             lit "2026-03-08T07:00:00+00:00"])).
Proof.
  apply parse_llm_response_array_in_prose.
  - repeat constructor.
  - vm_compute. intuition discriminate.
  - vm_compute. intuition discriminate.
  - vm_compute. intuition discriminate.
  - vm_compute. intuition discriminate.
Defined.

(** X9: when the block of the first fence holds one line, a JSON array of
    strings that need no escaping, the response parses to that array,
    whatever stands before the opening fence line, on it, and after the
    closing one. *)
Theorem parse_llm_response_fenced_array
  (response : str) (pre rest : list str) (opening : str) (l : list str) :
  Forall (fun s => plain s = true) l ->
  split (strip response) NL = pre ++ opening :: [render_strings l] ++ rest ->
  Forall (fun line => is_fence_line line = false) pre ->
  is_fence_line opening = true ->
  closed_or_end rest ->
  parse_llm_response response = Ok (JArray (map JString l)).
Proof.
  intros Hl Hsplit Hpre Hopen Hrest.
  destruct (render_fixed_by_parser_steps Hl) as (Hstrip & Hline & Hslice).
  assert (Hfence : contains (strip response) FENCE = true).
  { apply fence_line_contains with (line := opening); [|exact Hopen].
    rewrite Hsplit. apply in_or_app. right. now left. }
  unfold parse_llm_response, strip_fences.
  rewrite Hfence, Hsplit.
  rewrite fence_loop_first_block; try assumption.
  - cbn [join]. rewrite Hstrip, Hslice. now apply json_loads_render.
  - constructor; [exact Hline | constructor].
Qed.

Lemma parse_llm_response_fenced_array_witness :
  parse_llm_response
    (join [NL]
       [ lit "Here you go:";
         lit "```json";
         render_strings [lit "2026-03-01T07:00:00+00:00";
                         lit "2026-03-08T07:00:00+00:00"];
         lit "```";
         lit "Hope that helps!" ])
  = Ok (JArray (map JString [lit "2026-03-01T07:00:00+00:00";
                             lit "2026-03-08T07:00:00+00:00"])).
Proof.
  apply (@parse_llm_response_fenced_array _
           [lit "Here you go:"] [lit "```"; lit "Hope that helps!"]
           (lit "```json")).
  - repeat constructor.
  - reflexivity.
  - repeat constructor.
  - reflexivity.
  - reflexivity.
Defined.

(** ** The resolver *)

Section ResolverMore.

Variable World : Type.
Variable expand_rrule :
  str -> str -> Z -> str -> option str -> option Z -> M World str.

Lemma comprehension_starts (events : list (list (str * json)))
  (starts : list json) :
  Forall2 (fun ev s => PyDict.get ev (lit "start") = Some s) events starts ->
  Py.comprehension (fun e => Py.getitem e (lit "start")) (map JObject events)
  = Ok starts.
Proof.
  induction 1 as [|ev s events starts Hev _ IH]; [reflexivity|].
  cbn [map Py.comprehension]. unfold Py.getitem at 1. rewrite Hev.
  cbn [bind]. now rewrite IH.
Qed.

Lemma comprehension_missing_start (before : list (list (str * json)))
  (starts : list json) (ev : list (str * json)) (after : list json) :
  Forall2 (fun ev s => PyDict.get ev (lit "start") = Some s) before starts ->
  PyDict.get ev (lit "start") = None ->
  Py.comprehension (fun e => Py.getitem e (lit "start"))
    (map JObject before ++ JObject ev :: after)
  = Raise (Py.KeyError (lit "start")).
Proof.
  induction 1 as [|ev0 s before starts Hev _ IH]; intros Hnone.
  - cbn [map app Py.comprehension]. unfold Py.getitem. now rewrite Hnone.
  - cbn [map app Py.comprehension]. unfold Py.getitem at 1. rewrite Hev.
    cbn [bind]. now rewrite IH.
Qed.

(** X10: outside hardcoded mode the resolver calls the Truth Engine once
    with the rule parameters of the challenge.  A failure of the engine, or
    of decoding what it returned, leaves the resolver as it is; an array of
    events gives their start fields in the order of the events; an event
    without a start field gives [KeyError]. *)
Theorem verify_challenge_engine (ch : challenge) (w : World) :
  is_hardcoded ch = false ->
  (forall e w',
      expand_rrule (rrule ch) (dtstart ch) (duration_minutes ch) (timezone ch)
        (until ch) (max_count ch) w = (Raise e, w') ->
      verify_challenge expand_rrule ch w = (Raise e, w'))
  /\ (forall text w',
         expand_rrule (rrule ch) (dtstart ch) (duration_minutes ch)
           (timezone ch) (until ch) (max_count ch) w = (Ok text, w') ->
         (forall e, json_loads text = Raise e ->
                    verify_challenge expand_rrule ch w = (Raise e, w'))
         /\ (forall events starts,
                json_loads text = Ok (JArray (map JObject events)) ->
                Forall2 (fun ev s => PyDict.get ev (lit "start") = Some s)
                  events starts ->
                verify_challenge expand_rrule ch w = (Ok starts, w'))
         /\ (forall before starts ev after,
                json_loads text
                = Ok (JArray (map JObject before ++ JObject ev :: after)) ->
                Forall2 (fun ev s => PyDict.get ev (lit "start") = Some s)
                  before starts ->
                PyDict.get ev (lit "start") = None ->
                verify_challenge expand_rrule ch w
                = (Raise (Py.KeyError (lit "start")), w'))).
Proof.
  intros Hmode. unfold verify_challenge. rewrite Hmode. unfold bindM, lift.
  split.
  - intros e w' Hcall. now rewrite Hcall.
  - intros text w' Hcall. rewrite Hcall. repeat split.
    + intros e He. now rewrite He.
    + intros events starts Hd Hs. rewrite Hd. cbn [bind Py.iter].
      now rewrite (comprehension_starts Hs).
    + intros before starts ev after Hd Hs Hnone. rewrite Hd.
      cbn [bind Py.iter].
      now rewrite (@comprehension_missing_start before starts ev after Hs Hnone).
Qed.

(** X11: a challenge in hardcoded mode that carries no answer fails with
    [KeyError] for the key [correct_answer]; the Truth Engine is not
    called, and [verify_all] records the failure as the entry of the
    challenge. *)
Theorem verify_challenge_hardcoded_without_answer (ch : challenge) (w : World) :
  verification_mode ch = Some (lit "hardcoded") ->
  correct_answer ch = None ->
  verify_challenge expand_rrule ch w
  = (Raise (Py.KeyError (lit "correct_answer")), w)
  /\ verify_all expand_rrule [ch] w
     = (Ok [(id ch, ErrorText (lit "ERROR: 'correct_answer'"))], w).
Proof.
  intros Hmode Hanswer.
  assert (H : verify_challenge expand_rrule ch w
              = (Raise (Py.KeyError (lit "correct_answer")), w)).
  { unfold verify_challenge, is_hardcoded, lift, getitem_correct_answer.
    now rewrite Hmode, Hanswer. }
  split; [exact H|].
  unfold verify_all. rewrite verify_loop_step, H. reflexivity.
Qed.

Lemma dict_keys_set {V} (d : list (str * V)) (k : str) (v : V) :
  PyDict.keys (PyDict.set d k v)
  = if mem k (PyDict.keys d) then PyDict.keys d else PyDict.keys d ++ [k].
Proof.
  induction d as [|[k' v'] d IH]; [reflexivity|].
  cbn [PyDict.set PyDict.keys map fst mem existsb].
  rewrite (eqb_sym k k'). destruct (eqb k' k) eqn:E.
  - reflexivity.
  - cbn [map fst orb]. fold (PyDict.keys (PyDict.set d k v)).
    rewrite IH. fold (PyDict.keys d). fold (mem k (PyDict.keys d)).
    now destruct (mem k (PyDict.keys d)).
Qed.

Lemma verify_loop_total (challenges : list challenge) :
  forall (results : list (str * resolution)) (w : World),
    NoDup (PyDict.keys results) ->
    exists final w',
      verify_loop expand_rrule challenges results w = (Ok final, w')
      /\ NoDup (PyDict.keys final)
      /\ (forall k, In k (PyDict.keys final)
                    <-> In k (PyDict.keys results) \/ In k (map id challenges))
      /\ length final <= length results + length challenges.
Proof.
  induction challenges as [|ch rest IH]; intros results w Hnd.
  - exists results, w. repeat split; simpl; try tauto; try lia; assumption.
  - rewrite verify_loop_step.
    set (entry := entry_of (fst (verify_challenge expand_rrule ch w))).
    set (w1 := snd (verify_challenge expand_rrule ch w)).
    assert (Hkeys := dict_keys_set results (id ch) entry).
    assert (Hnd' : NoDup (PyDict.keys (PyDict.set results (id ch) entry))).
    { rewrite Hkeys. destruct (mem (id ch) (PyDict.keys results)) eqn:E;
        [assumption|].
      apply mem_false in E. apply NoDup_app; auto.
      - repeat constructor. intros [].
      - intros x Hx [<- | []]. contradiction. }
    destruct (IH (PyDict.set results (id ch) entry) w1 Hnd')
      as (final & w' & Hrun & Hfinal & Hmem & Hlen).
    exists final, w'. repeat split; try assumption.
    + intros Hin. apply Hmem in Hin. rewrite Hkeys in Hin.
      destruct (mem (id ch) (PyDict.keys results)) eqn:E.
      * simpl. tauto.
      * destruct Hin as [Hin | Hin]; [|simpl; tauto].
        apply in_app_or in Hin. simpl in *. tauto.
    + intros Hin. apply Hmem. rewrite Hkeys.
      destruct (mem (id ch) (PyDict.keys results)) eqn:E.
      * apply mem_In in E. simpl in Hin.
        destruct Hin as [Hin | [<- | Hin]]; auto.
      * rewrite in_app_iff. simpl in *. tauto.
    + assert (Hl : length (PyDict.set results (id ch) entry)
                   <= S (length results)).
      { rewrite <- !(length_map fst). fold (PyDict.keys results).
        change (map fst (PyDict.set results (id ch) entry))
          with (PyDict.keys (PyDict.set results (id ch) entry)).
        rewrite Hkeys. destruct (mem (id ch) (PyDict.keys results));
          [lia | rewrite length_app; simpl; lia]. }
      simpl. lia.
Qed.

(** X12: for any challenges, also with identifiers that repeat,
    [verify_all] never raises; the result has every identifier as a key,
    no other key, no key twice, and at most one entry per challenge. *)
Theorem verify_all_total (challenges : list challenge) (w : World) :
  exists results w',
    verify_all expand_rrule challenges w = (Ok results, w')
    /\ NoDup (PyDict.keys results)
    /\ (forall k, In k (PyDict.keys results) <-> In k (map id challenges))
    /\ length results <= length challenges.
Proof.
  destruct (@verify_loop_total challenges [] w (NoDup_nil _))
    as (final & w' & Hrun & Hnd & Hmem & Hlen).
  exists final, w'. repeat split; try assumption.
  - intros Hin. apply Hmem in Hin. destruct Hin as [[] | Hin]. exact Hin.
  - intros Hin. apply Hmem. now right.
Qed.

End ResolverMore.

Lemma verify_challenge_engine_witness :
  verify_challenge sample_engine
    (sample_challenge (lit "first") (lit "FREQ=DAILY;COUNT=1") None None) 0
  = (Ok [JString (lit "2026-03-01T07:00:00+00:00")], 1).
Proof.
  destruct (@verify_challenge_engine nat sample_engine
              (sample_challenge (lit "first") (lit "FREQ=DAILY;COUNT=1")
                 None None) 0 eq_refl) as [_ H].
  destruct (H engine_output 1 eq_refl) as (_ & Hok & _).
  apply (Hok [[(lit "start", JString (lit "2026-03-01T07:00:00+00:00"))]]).
  - reflexivity.
  - repeat constructor.
Defined.

Lemma verify_challenge_hardcoded_without_answer_witness :
  verify_challenge sample_engine
    (sample_challenge (lit "x") (lit "FREQ=DAILY") (Some (lit "hardcoded")) None)
    0
  = (Raise (Py.KeyError (lit "correct_answer")), 0).
Proof.
  apply (@verify_challenge_hardcoded_without_answer nat sample_engine
           (sample_challenge (lit "x") (lit "FREQ=DAILY")
              (Some (lit "hardcoded")) None) 0); reflexivity.
Defined.

(** ** The runner *)

Lemma select_target_no_match (challenges : list challenge) (c : char) (t : str) :
  (forall ch, In ch challenges -> id ch <> c :: t) ->
  select_target challenges (Some (c :: t)) = [].
Proof.
  intros Hnone. unfold select_target.
  induction challenges as [|ch rest IH]; [reflexivity|].
  cbn [filter].
  rewrite (proj2 (eqb_neq (id ch) (c :: t))) by (apply Hnone; now left).
  apply IH. intros ch' Hin. apply Hnone. now right.
Qed.

Lemma select_target_unique (challenges : list challenge) (ch : challenge) :
  NoDup (map id challenges) -> In ch challenges -> id ch <> [] ->
  select_target challenges (Some (id ch)) = [ch].
Proof.
  intros Hnd Hin Hne. unfold select_target.
  destruct (id ch) as [|c t] eqn:Eid; [congruence|]. rewrite <- Eid. clear Hne.
  induction challenges as [|x rest IH]; [destruct Hin|].
  simpl in Hnd. apply NoDup_cons_iff in Hnd. destruct Hnd as [Hx Hnd].
  cbn [filter]. destruct Hin as [-> | Hin].
  - rewrite eqb_refl. f_equal.
    clear IH. induction rest as [|y rest IH]; [reflexivity|].
    simpl in Hx, Hnd. apply NoDup_cons_iff in Hnd. cbn [filter].
    rewrite (proj2 (eqb_neq (id y) (id ch))) by (intros E; apply Hx; now left).
    apply IH; tauto.
  - rewrite (proj2 (eqb_neq (id x) (id ch))).
    + now apply IH.
    + intros E. apply Hx. rewrite E. now apply in_map.
Qed.

Section RunnerMore.

Variable World : Type.
Variable expand_rrule :
  str -> str -> Z -> str -> option str -> option Z -> M World str.
Variable openai_chat : str -> str -> str -> M World str.
Variable anthropic_messages : str -> str -> str -> M World str.

Lemma run_llm_unknown (provider model system user : str) (w : World) :
  provider <> lit "openai" -> provider <> lit "anthropic" ->
  run_llm openai_chat anthropic_messages provider model system user w
  = (Raise (Py.ValueError (lit "Unknown provider: " ++ provider)), w).
Proof.
  intros H1 H2. unfold run_llm.
  apply eqb_neq in H1. apply eqb_neq in H2. now rewrite H1, H2.
Qed.

Lemma answer_of_has_answer (ch : challenge) :
  has_answer ch -> correct_answer ch = Some (answer_of ch).
Proof. intros [a Ha]. unfold answer_of. now rewrite Ha. Qed.

Lemma test_loop_unknown_provider (provider model : str) (target : list challenge) :
  provider <> lit "openai" -> provider <> lit "anthropic" ->
  Forall has_answer target ->
  forall (results : list evaluation) (passed : nat) (w : World),
    test_loop openai_chat anthropic_messages provider model target results
      passed w
    = (Ok (results
           ++ map (fun ch =>
                     failing_row ch (answer_of ch) (JArray [])
                       (Py.ValueError (lit "Unknown provider: " ++ provider)))
                  target,
           passed), w).
Proof.
  intros H1 H2. induction 1 as [|ch rest Hch _ IH]; intros results passed w.
  - simpl. now rewrite app_nil_r.
  - pose proof (@evaluate_cases World openai_chat anthropic_messages
                  provider model ch (answer_of ch) w
                  (answer_of_has_answer Hch)) as Hev.
    rewrite run_llm_unknown in Hev by assumption.
    cbn [test_loop]. unfold bindM. rewrite Hev.
    cbn [row_comparison failing_row c_correct].
    rewrite IH. cbn [map]. now rewrite <- app_assoc.
Qed.

Lemma ensure_answers_cached
  (engine : str -> str -> Z -> str -> option str -> option Z -> M World str)
  (target : list challenge) (w : World) :
  Forall (fun ch => lacks_answer ch = false) target ->
  ensure_answers engine target w = (Ok target, w).
Proof.
  induction 1 as [|ch rest Hch _ IH]; [reflexivity|].
  cbn [ensure_answers]. unfold bindM, ret. rewrite Hch.
  unfold ret in IH. now rewrite IH.
Qed.

Lemma same_definition_refl (ch : challenge) : same_definition ch ch.
Proof. unfold same_definition. tauto. Qed.

Lemma same_definition_set (ch : challenge) (answer : list json) :
  same_definition ch (set_correct_answer ch answer).
Proof. unfold same_definition. simpl. tauto. Qed.

Lemma build_prompt_same (a b : challenge) :
  same_definition a b -> build_prompt a = build_prompt b.
Proof.
  intros (_ & Hname & Hq & Hrule & Hstart & Htz & Hdur & Huntil & Hex & _).
  unfold build_prompt. now rewrite Hname, Hq, Hrule, Hstart, Htz, Hdur, Huntil, Hex.
Qed.

Lemma ensure_answers_same (target : list challenge) :
  forall (w w' : World) (target' : list challenge),
    ensure_answers expand_rrule target w = (Ok target', w') ->
    Forall2 (fun ch ch' =>
               same_definition ch ch'
               /\ (lacks_answer ch = false -> ch' = ch)) target target'.
Proof.
  induction target as [|ch rest IH]; intros w w' target'; simpl.
  - unfold ret. intros [= <- _]. constructor.
  - unfold bindM, ret. destruct (lacks_answer ch) eqn:E.
    + destruct (verify_challenge expand_rrule ch w) as [[answer|e] w0];
        [|discriminate].
      destruct (ensure_answers expand_rrule rest w0) as [[rest'|e] w2] eqn:Er;
        [|discriminate].
      intros [= <- _]. constructor; [|now apply (IH _ _ _ Er)].
      split; [apply same_definition_set | congruence].
    + destruct (ensure_answers expand_rrule rest w) as [[rest'|e] w2] eqn:Er;
        [|discriminate].
      intros [= <- _]. constructor; [|now apply (IH _ _ _ Er)].
      split; [apply same_definition_refl | reflexivity].
Qed.

(** X13: a provider that is neither [openai] nor [anthropic] makes
    [run_llm] raise [ValueError] without calling anything; [cmd_test]
    catches it for every challenge, so every row is the failing row whose
    raw response names the unknown provider, and no row passes. *)
Theorem cmd_test_unknown_provider (challenges : list challenge)
  (wanted : option str) (provider model : str) (w w1 : World)
  (target' : list challenge) :
  provider <> lit "openai" ->
  provider <> lit "anthropic" ->
  select_target challenges wanted <> [] ->
  ensure_answers expand_rrule (select_target challenges wanted) w
  = (Ok target', w1) ->
  (forall system user w0,
      run_llm openai_chat anthropic_messages provider model system user w0
      = (Raise (Py.ValueError (lit "Unknown provider: " ++ provider)), w0))
  /\ cmd_test expand_rrule openai_chat anthropic_messages
       challenges wanted provider model w
     = (Finished
          (map (fun ch =>
                  failing_row ch (answer_of ch) (JArray [])
                    (Py.ValueError (lit "Unknown provider: " ++ provider)))
               target',
           0),
        w1).
Proof.
  intros H1 H2 Hne Hensure. split.
  - intros system user w0. now apply run_llm_unknown.
  - unfold cmd_test.
    destruct (select_target challenges wanted) as [|ch rest] eqn:Et;
      [congruence|].
    rewrite Hensure.
    destruct (@ensure_answers_spec World expand_rrule _ _ _ _ Hensure)
      as (Hall & _).
    now rewrite test_loop_unknown_provider.
Qed.

(** X14: when no challenge has the identifier asked for, or there is no
    challenge at all, [cmd_test] exits with status 1 before anything is
    resolved or sent: the world is as it was. *)
Theorem cmd_test_unknown_challenge (challenges : list challenge)
  (wanted : str) (provider model : str) (w : World) :
  wanted <> [] ->
  (forall ch, In ch challenges -> id ch <> wanted) ->
  cmd_test expand_rrule openai_chat anthropic_messages
    challenges (Some wanted) provider model w
  = (SysExit 1, w)
  /\ (forall any,
         cmd_test expand_rrule openai_chat anthropic_messages
           [] any provider model w
         = (SysExit 1, w)).
Proof.
  intros Hne Hnone. split.
  - destruct wanted as [|c t]; [congruence|].
    unfold cmd_test. now rewrite select_target_no_match.
  - intros [[|c t]|]; reflexivity.
Qed.

(** X15: challenges that carry a non-empty answer are not resolved
    again: [cmd_test] does not call the Truth Engine for them, so its
    result is the same whatever the engine is. *)
Theorem cmd_test_uses_stored_answers (challenges : list challenge)
  (wanted : option str) (provider model : str) (w : World)
  (other_engine :
     str -> str -> Z -> str -> option str -> option Z -> M World str) :
  Forall (fun ch => lacks_answer ch = false) (select_target challenges wanted) ->
  ensure_answers expand_rrule (select_target challenges wanted) w
  = (Ok (select_target challenges wanted), w)
  /\ cmd_test expand_rrule openai_chat anthropic_messages
       challenges wanted provider model w
     = cmd_test other_engine openai_chat anthropic_messages
         challenges wanted provider model w.
Proof.
  intros Hall. split; [now apply ensure_answers_cached|].
  unfold cmd_test.
  destruct (select_target challenges wanted) as [|ch rest] eqn:Et;
    [reflexivity|].
  now rewrite !ensure_answers_cached by assumption.
Qed.

End RunnerMore.

Section RunnerPasses.

Variable World : Type.
Variable expand_rrule :
  str -> str -> Z -> str -> option str -> option Z -> M World str.
Variable openai_chat : str -> str -> str -> M World str.
Variable anthropic_messages : str -> str -> str -> M World str.

(** X16: populating the answers changes nothing else: every challenge
    keeps its definition, a challenge that had a non-empty answer is left
    as it was, every challenge has an answer afterwards, and the prompts
    built from the challenges are the same before and after. *)
Theorem ensure_answers_keeps_definitions (target target' : list challenge)
  (w w' : World) :
  ensure_answers expand_rrule target w = (Ok target', w') ->
  Forall2 same_definition target target'
  /\ Forall2 (fun ch ch' => lacks_answer ch = false -> ch' = ch) target target'
  /\ Forall has_answer target'
  /\ map build_prompt target' = map build_prompt target.
Proof.
  intros Hensure.
  pose proof (@ensure_answers_same World expand_rrule _ _ _ _ Hensure) as Hsame.
  destruct (@ensure_answers_spec World expand_rrule _ _ _ _ Hensure)
    as (Hall & _).
  repeat split; try assumption.
  - clear Hensure Hall.
    induction Hsame as [|a b l l' [H _] _ IH]; constructor; assumption.
  - clear Hensure Hall.
    induction Hsame as [|a b l l' [_ H] _ IH]; constructor; assumption.
  - clear Hensure Hall.
    induction Hsame as [|a b l l' [H _] _ IH]; [reflexivity|].
    cbn [map]. now rewrite IH, (build_prompt_same H).
Qed.

(** X17: when the agent answers with a JSON array of strings that need
    no escaping, alone or inside prose, the row of the challenge holds
    that array as its actual sequence and the agent's text as its raw
    response, and it is correct exactly when the answer and the expected
    sequence have the same normalized entries in the same order. *)
Theorem evaluate_well_formed_answer (provider model : str) (ch : challenge)
  (expected answer : list str) (pre post : str) (w w' : World) :
  correct_answer ch = Some (map JString expected) ->
  Forall (fun s => plain s = true) answer ->
  ~ In LBRACKET pre -> ~ In BACKTICK pre ->
  ~ In RBRACKET post -> ~ In BACKTICK post ->
  run_llm openai_chat anthropic_messages provider model SYSTEM_PROMPT
    (build_prompt ch) w
  = (Ok (pre ++ render_strings answer ++ post), w') ->
  evaluate openai_chat anthropic_messages provider model ch w
  = (Ok (compared_row ch (map JString expected) (JArray (map JString answer))
           (pre ++ render_strings answer ++ post)
           (compare_answers expected answer)), w')
  /\ (correct (compare_answers expected answer) = true
      <-> map normalize_datetime expected = map normalize_datetime answer).
Proof.
  intros Hanswer Hplain Hpre Hpre' Hpost Hpost' Hrun.
  split; [|apply compare_correct_iff].
  pose proof (@evaluate_cases World openai_chat anthropic_messages
                provider model ch (map JString expected) w Hanswer) as Hev.
  rewrite Hrun in Hev.
  unfold parse_llm_response in Hev.
  rewrite recovered_span_in_prose in Hev by assumption.
  rewrite (json_loads_render Hplain) in Hev.
  now rewrite py_compare_answers_strings in Hev.
Qed.

End RunnerPasses.

(** ** The other commands *)

Section CommandFacts.

Variable World : Type.
Variable expand_rrule :
  str -> str -> Z -> str -> option str -> option Z -> M World str.
Variable write_challenges : str -> list challenge -> M World unit.

Lemma dict_get_in {V} (d : list (str * V)) (k : str) (v : V) :
  NoDup (PyDict.keys d) -> In (k, v) d -> PyDict.get d k = Some v.
Proof.
  induction d as [|[k' v'] d IH]; [intros _ []|].
  cbn [PyDict.keys map fst]. intros Hnd Hin.
  apply NoDup_cons_iff in Hnd. destruct Hnd as [Hk' Hnd].
  cbn [PyDict.get]. destruct Hin as [[= -> ->] | Hin].
  - now rewrite eqb_refl.
  - destruct (eqb k' k) eqn:E.
    + apply eqb_eq in E. subst k'. exfalso. apply Hk'.
      change k with (fst (k, v)). now apply in_map.
    + now apply IH.
Qed.

Lemma resolved_in_turn_keys (challenges : list challenge) :
  forall (w : World) (results : list (str * resolution)),
    resolved_in_turn expand_rrule challenges w results ->
    map fst results = map id challenges.
Proof.
  induction challenges as [|ch rest IH]; intros w [|[k e] results]; simpl;
    try tauto.
  intros (-> & _ & Hrest). f_equal. now apply IH in Hrest.
Qed.

Lemma is_error_entry_of (outcome : result (list json)) :
  is_error_entry (entry_of outcome) = negb (is_ok outcome).
Proof. destruct outcome; reflexivity. Qed.

Lemma count_errors_spec (results : list (str * resolution)) :
  NoDup (PyDict.keys results) ->
  forall (challenges : list challenge) (entries : list (str * resolution))
         (n : nat),
    map fst entries = map id challenges ->
    incl entries results ->
    count_errors challenges results n
    = Ok (n + length (filter (fun kv => is_error_entry (snd kv)) entries)).
Proof.
  intros Hnd. induction challenges as [|ch rest IH];
    intros [|[k e] entries] n Hkeys Hincl; try discriminate.
  - simpl. f_equal. lia.
  - injection Hkeys as Hk Hkeys. simpl in Hk. subst k.
    cbn [count_errors]. unfold getitem_results.
    rewrite (@dict_get_in _ results (id ch) e Hnd (Hincl _ (or_introl eq_refl))).
    cbn [bind].
    rewrite (IH entries) by (assumption || (intros x Hx; apply Hincl; now right)).
    cbn [filter snd]. destruct (is_error_entry e); simpl; f_equal; lia.
Qed.

Lemma refresh_answers_spec (results : list (str * resolution)) :
  NoDup (PyDict.keys results) ->
  forall (challenges : list challenge) (entries : list (str * resolution)),
    map fst entries = map id challenges ->
    incl entries results ->
    refresh_answers challenges results
    = Ok (with_resolved_answers challenges entries).
Proof.
  intros Hnd. induction challenges as [|ch rest IH];
    intros [|[k e] entries] Hkeys Hincl; try discriminate.
  - reflexivity.
  - injection Hkeys as Hk Hkeys. simpl in Hk. subst k.
    cbn [refresh_answers]. unfold getitem_results.
    rewrite (@dict_get_in _ results (id ch) e Hnd (Hincl _ (or_introl eq_refl))).
    cbn [bind].
    rewrite (IH entries) by (assumption || (intros x Hx; apply Hincl; now right)).
    reflexivity.
Qed.

Lemma no_error_iff {A} (f : A -> bool) (l : list A) :
  length (filter f l) = 0 <-> existsb f l = false.
Proof.
  induction l as [|x l IH]; simpl; [tauto|].
  destruct (f x); simpl; [split; discriminate | exact IH].
Qed.

(** X18: for challenges with pairwise distinct identifiers, [cmd_verify]
    exits with status 1 exactly when the resolution of some challenge
    failed, and then writes nothing.  When every challenge resolved and an
    output file is named, it writes the challenges, each with the start
    times resolved for it as its answer; with no output file it only
    returns. *)
Theorem cmd_verify_exit_status (challenges : list challenge)
  (output : option str) (w w1 : World) (results : list (str * resolution)) :
  NoDup (map id challenges) ->
  verify_all expand_rrule challenges w = (Ok results, w1) ->
  resolved_in_turn expand_rrule challenges w results
  /\ (forall outcome, is_error_entry (entry_of outcome) = negb (is_ok outcome))
  /\ cmd_verify expand_rrule write_challenges challenges output w
     = if existsb (fun kv => is_error_entry (snd kv)) results
       then (SysExit 1, w1)
       else match output with
            | Some ((_ :: _) as path) =>
                match write_challenges path
                        (with_resolved_answers challenges results) w1 with
                | (Raise e, w2) => (Uncaught e, w2)
                | (Ok _, w2) => (Finished tt, w2)
                end
            | _ => (Finished tt, w1)
            end.
Proof.
  intros Hnd Hrun.
  destruct (@verify_loop_spec World expand_rrule challenges Hnd [] w)
    as (new & w' & Hloop & _ & Hturn); [intros ch _ []|].
  unfold verify_all in Hrun. rewrite Hloop in Hrun.
  injection Hrun as <- <-. cbn [app] in *.
  split; [exact Hturn|]. split; [exact is_error_entry_of|].
  pose proof (@resolved_in_turn_keys challenges w new Hturn) as Hkeys.
  assert (Hnd' : NoDup (PyDict.keys new))
    by (unfold PyDict.keys; now rewrite Hkeys).
  unfold cmd_verify, verify_all. rewrite Hloop. cbn [app].
  rewrite (@count_errors_spec new Hnd' challenges new 0 Hkeys (incl_refl _)).
  cbn [Nat.add].
  destruct (existsb (fun kv => is_error_entry (snd kv)) new) eqn:E.
  - destruct (length (filter (fun kv => is_error_entry (snd kv)) new)) eqn:El.
    + apply no_error_iff in El. congruence.
    + now destruct output as [[|c t]|].
  - apply no_error_iff in E. rewrite E.
    destruct output as [[|c t]|]; try reflexivity.
    now rewrite (@refresh_answers_spec new Hnd' challenges new Hkeys (incl_refl _)).
Qed.

End CommandFacts.

(** X19: [cmd_prompt] exits with status 1 when no challenge has the
    identifier asked for, after naming it and listing the identifiers that
    exist.  For the identifier of a challenge of a registry without
    repeated identifiers it prints that challenge alone: a rule, its name
    and difficulty, a rule, and the prompt [build_prompt] gives. *)
Theorem cmd_prompt_selection (challenges : list challenge) :
  NoDup (map id challenges) ->
  (forall ch, In ch challenges -> id ch <> [] ->
      cmd_prompt challenges (Some (id ch))
      = ([ [NL] ++ repeat 0x3D%N 60;
           lit "Challenge: " ++ name ch ++ lit " (difficulty: "
             ++ difficulty ch ++ lit ")";
           repeat 0x3D%N 60;
           build_prompt ch ],
         Finished tt))
  /\ (forall wanted,
         wanted <> [] ->
         (forall ch, In ch challenges -> id ch <> wanted) ->
         cmd_prompt challenges (Some wanted)
         = ([ lit "  " ++ RED ++ lit "Challenge '" ++ wanted
                ++ lit "' not found." ++ RESET;
              lit "  Available: " ++ join (lit ", ") (map id challenges) ],
            SysExit 1)).
Proof.
  intros Hnd. split.
  - intros ch Hin Hne. unfold cmd_prompt.
    now rewrite (@select_target_unique challenges ch Hnd Hin Hne).
  - intros wanted Hne Hnone. destruct wanted as [|c t]; [congruence|].
    unfold cmd_prompt. now rewrite select_target_no_match.
Qed.

Lemma cmd_test_unknown_provider_witness :
  cmd_test sample_engine scenario_B_llm unreachable_llm
    [scenario_A_challenge] None (lit "mistral") (lit "large") 0
  = (Finished
       ([failing_row scenario_A_challenge
           [JString (lit "2026-03-01T07:00:00+00:00")] (JArray [])
           (Py.ValueError (lit "Unknown provider: mistral"))],
        0),
     0).
Proof.
  destruct (@cmd_test_unknown_provider nat sample_engine scenario_B_llm
              unreachable_llm [scenario_A_challenge] None (lit "mistral")
              (lit "large") 0 0 [scenario_A_challenge]) as [_ H].
  - discriminate.
  - discriminate.
  - discriminate.
  - reflexivity.
  - exact H.
Defined.

Lemma cmd_test_unknown_challenge_witness :
  cmd_test sample_engine scenario_B_llm unreachable_llm
    sample_batch (Some (lit "fourth")) (lit "openai") (lit "gpt-4o") 0
  = (SysExit 1, 0).
Proof.
  destruct (@cmd_test_unknown_challenge nat sample_engine scenario_B_llm
              unreachable_llm sample_batch (lit "fourth") (lit "openai")
              (lit "gpt-4o") 0) as [H _].
  - discriminate.
  - intros ch [<- | [<- | [<- | []]]]; discriminate.
  - exact H.
Defined.

Lemma cmd_test_uses_stored_answers_witness :
  cmd_test sample_engine scenario_B_llm unreachable_llm
    [scenario_A_challenge] None (lit "openai") (lit "gpt-4o") 0
  = cmd_test (fun _ _ _ _ _ _ => raise (Py.ValueError (lit "no engine")))
      scenario_B_llm unreachable_llm
      [scenario_A_challenge] None (lit "openai") (lit "gpt-4o") 0.
Proof.
  destruct (@cmd_test_uses_stored_answers nat sample_engine scenario_B_llm
              unreachable_llm [scenario_A_challenge] None (lit "openai")
              (lit "gpt-4o") 0
              (fun _ _ _ _ _ _ => raise (Py.ValueError (lit "no engine"))))
    as [_ H].
  - repeat constructor.
  - exact H.
Defined.

Lemma ensure_answers_keeps_definitions_witness :
  map build_prompt
    [set_correct_answer
       (sample_challenge (lit "first") (lit "FREQ=DAILY;COUNT=1") None None)
       [JString (lit "2026-03-01T07:00:00+00:00")]]
  = map build_prompt
      [sample_challenge (lit "first") (lit "FREQ=DAILY;COUNT=1") None None].
Proof.
  destruct (@ensure_answers_keeps_definitions nat sample_engine
              [sample_challenge (lit "first") (lit "FREQ=DAILY;COUNT=1")
                 None None]
              [set_correct_answer
                 (sample_challenge (lit "first") (lit "FREQ=DAILY;COUNT=1")
                    None None)
                 [JString (lit "2026-03-01T07:00:00+00:00")]]
              0 1) as (_ & _ & _ & H).
  - reflexivity.
  - exact H.
Defined.

Lemma evaluate_well_formed_answer_witness :
  evaluate (fixed_llm (lit "Answer: "
                         ++ render_strings [lit "2026-03-01T07:00:00Z"]
                         ++ lit "."))
    unreachable_llm (lit "openai") (lit "gpt-4o") scenario_A_challenge 0
  = (Ok (compared_row scenario_A_challenge
           (map JString [lit "2026-03-01T07:00:00+00:00"])
           (JArray (map JString [lit "2026-03-01T07:00:00Z"]))
           (lit "Answer: " ++ render_strings [lit "2026-03-01T07:00:00Z"]
              ++ lit ".")
           (compare_answers [lit "2026-03-01T07:00:00+00:00"]
              [lit "2026-03-01T07:00:00Z"])),
     1).
Proof.
  destruct (@evaluate_well_formed_answer nat
              (fixed_llm (lit "Answer: "
                            ++ render_strings [lit "2026-03-01T07:00:00Z"]
                            ++ lit "."))
              unreachable_llm (lit "openai") (lit "gpt-4o")
              scenario_A_challenge
              [lit "2026-03-01T07:00:00+00:00"] [lit "2026-03-01T07:00:00Z"]
              (lit "Answer: ") (lit ".") 0 1) as [H _].
  - reflexivity.
  - repeat constructor.
  - vm_compute. intuition discriminate.
  - vm_compute. intuition discriminate.
  - vm_compute. intuition discriminate.
  - vm_compute. intuition discriminate.
  - reflexivity.
  - exact H.
Defined.

Lemma cmd_verify_exit_status_witness :
  cmd_verify sample_engine accepting_writer sample_batch
    (Some (lit "challenges.json")) 0
  = (SysExit 1, 3).
Proof.
  destruct (@cmd_verify_exit_status nat sample_engine accepting_writer
              sample_batch (Some (lit "challenges.json")) 0 3
              [ (lit "first", Starts [JString (lit "2026-03-01T07:00:00+00:00")]);
                (lit "second", ErrorText (lit "ERROR: unsupported rule"));
                (lit "third", Starts [JString (lit "2026-03-01T07:00:00+00:00")]) ])
    as (_ & _ & H).
  - vm_compute. repeat constructor; simpl; intuition discriminate.
  - reflexivity.
  - exact H.
Defined.

Lemma cmd_prompt_selection_witness :
  cmd_prompt sample_batch (Some (lit "fourth"))
  = ([ lit "  " ++ RED ++ lit "Challenge '" ++ lit "fourth"
         ++ lit "' not found." ++ RESET;
       lit "  Available: " ++ join (lit ", ") (map id sample_batch) ],
     SysExit 1).
Proof.
  destruct (@cmd_prompt_selection sample_batch) as [_ H].
  - vm_compute. repeat constructor; simpl; intuition discriminate.
  - apply H.
    + discriminate.
    + intros ch [<- | [<- | [<- | []]]]; discriminate.
Defined.

(** ** Lookups in the result of [verify_all] *)

Section VerifyLookup.

Variable World : Type.
Variable expand_rrule :
  str -> str -> Z -> str -> option str -> option Z -> M World str.

Lemma dict_get_set_same {V} (d : list (str * V)) (k : str) (v : V) :
  PyDict.get (PyDict.set d k v) k = Some v.
Proof.
  induction d as [|[k' v'] d IH]; simpl; [now rewrite eqb_refl|].
  destruct (eqb k' k) eqn:E; simpl; now rewrite E.
Qed.

Lemma dict_get_set_other {V} (d : list (str * V)) (k k' : str) (v : V) :
  k <> k' -> PyDict.get (PyDict.set d k v) k' = PyDict.get d k'.
Proof.
  intros Hne. induction d as [|[k0 v0] d IH]; simpl.
  - now rewrite (proj2 (eqb_neq k k')).
  - destruct (eqb k0 k) eqn:E; simpl.
    + apply eqb_eq in E. subst k0.
      now rewrite (proj2 (eqb_neq k k')).
    + now rewrite IH.
Qed.

Lemma verify_loop_app (pre post : list challenge) :
  forall (acc mid : list (str * resolution)) (w w1 : World),
    verify_loop expand_rrule pre acc w = (Ok mid, w1) ->
    verify_loop expand_rrule (pre ++ post) acc w
    = verify_loop expand_rrule post mid w1.
Proof.
  induction pre as [|ch rest IH]; intros acc mid w w1.
  - simpl. unfold ret. now intros [= -> ->].
  - cbn [app]. rewrite !verify_loop_step. apply IH.
Qed.

Lemma verify_loop_keeps_other_keys (challenges : list challenge) (k : str) :
  (forall ch, In ch challenges -> id ch <> k) ->
  forall (acc final : list (str * resolution)) (w w' : World),
    verify_loop expand_rrule challenges acc w = (Ok final, w') ->
    PyDict.get final k = PyDict.get acc k.
Proof.
  induction challenges as [|ch rest IH]; intros Hother acc final w w'.
  - simpl. unfold ret. now intros [= -> _].
  - rewrite verify_loop_step. intros Hrun.
    rewrite (IH (fun c Hc => Hother c (or_intror Hc)) _ _ _ _ Hrun).
    apply dict_get_set_other. apply Hother. now left.
Qed.

(** X20: in the result of [verify_all], looking up the identifier of a
    challenge gives the entry of that challenge's own resolution, made in
    the world the challenges before it left, provided no later challenge
    has the same identifier; a later challenge with the same identifier
    takes the entry over. *)
Theorem verify_all_lookup (before after : list challenge) (ch : challenge)
  (w w1 w2 : World) (partial results : list (str * resolution)) :
  verify_all expand_rrule before w = (Ok partial, w1) ->
  verify_all expand_rrule (before ++ ch :: after) w = (Ok results, w2) ->
  (forall later, In later after -> id later <> id ch) ->
  PyDict.get results (id ch)
  = Some (entry_of (fst (verify_challenge expand_rrule ch w1))).
Proof.
  unfold verify_all. intros Hbefore Hall Hafter.
  rewrite (@verify_loop_app before (ch :: after) [] partial w w1 Hbefore) in Hall.
  rewrite verify_loop_step in Hall.
  rewrite (@verify_loop_keeps_other_keys after (id ch) Hafter _ _ _ _ Hall).
  apply dict_get_set_same.
Qed.

End VerifyLookup.

Lemma verify_all_lookup_witness :
  PyDict.get
    [ (lit "first", Starts [JString (lit "2026-03-01T07:00:00+00:00")]);
      (lit "second", ErrorText (lit "ERROR: unsupported rule"));
      (lit "third", Starts [JString (lit "2026-03-01T07:00:00+00:00")]) ]
    (lit "second")
  = Some (entry_of
            (fst (verify_challenge sample_engine
                    (sample_challenge (lit "second") (lit "FREQ=BOGUS")
                       None None) 1))).
Proof.
  apply (@verify_all_lookup nat sample_engine
           [sample_challenge (lit "first") (lit "FREQ=DAILY;COUNT=1") None None]
           [sample_challenge (lit "third") (lit "FREQ=WEEKLY;COUNT=1") None None]
           (sample_challenge (lit "second") (lit "FREQ=BOGUS") None None)
           0 1 3
           [(lit "first", Starts [JString (lit "2026-03-01T07:00:00+00:00")])]).
  - reflexivity.
  - reflexivity.
  - intros later [<- | []]. discriminate.
Defined.

(** ** Which decoded answers are compared *)

Section ComparedAnswers.

Lemma comprehension_strings_iff (items : list json) :
  is_ok (Py.comprehension Py.normalize_datetime items) = forallb is_string items.
Proof.
  induction items as [|x items IH]; [reflexivity|].
  cbn [Py.comprehension forallb].
  destruct x; cbn [Py.normalize_datetime bind is_string andb]; try reflexivity.
  rewrite <- IH.
  now destruct (Py.comprehension Py.normalize_datetime items).
Qed.

Lemma forallb_is_string_map (l : list str) : forallb is_string (map JString l) = true.
Proof. induction l; simpl; auto. Qed.

End ComparedAnswers.

(** X21: against a list of strings, the comparison goes through exactly
    when the decoded answer is an array of strings, a string (compared
    character by character) or an object (compared by its keys); an array
    with an element that is not a string, a number, a boolean and null
    make it raise. *)
Theorem compare_answers_accepts (expected : list str) (actual : json) :
  is_ok (Py.compare_answers (map JString expected) actual)
  = match actual with
    | JArray items => forallb is_string items
    | JString _ | JObject _ => true
    | JNull | JBool _ | JNumber _ => false
    end.
Proof.
  unfold Py.compare_answers. rewrite comprehension_normalize. cbn [bind].
  destruct actual as [| b | lexeme | s | items | members];
    cbn [Py.iter bind is_ok]; try reflexivity.
  - assert (H : is_ok (Py.comprehension Py.normalize_datetime
                         (map (fun c => JString [c]) s)) = true).
    { rewrite comprehension_strings_iff. induction s; simpl; auto. }
    now destruct (Py.comprehension Py.normalize_datetime
                    (map (fun c => JString [c]) s)).
  - rewrite <- comprehension_strings_iff.
    now destruct (Py.comprehension Py.normalize_datetime items).
  - assert (H : is_ok (Py.comprehension Py.normalize_datetime
                         (map JString (PyDict.keys members))) = true)
      by (rewrite comprehension_strings_iff; apply forallb_is_string_map).
    now destruct (Py.comprehension Py.normalize_datetime
                    (map JString (PyDict.keys members))).
Qed.

(** ** One challenge at a time *)

Section SingleChallenge.

Variable World : Type.
Variable expand_rrule :
  str -> str -> Z -> str -> option str -> option Z -> M World str.
Variable openai_chat : str -> str -> str -> M World str.
Variable anthropic_messages : str -> str -> str -> M World str.

(** X22: asked for the identifier of one challenge of a registry without
    repeated identifiers, [cmd_test] resolves and evaluates that challenge
    alone: it returns one row, the row of that challenge, and a pass count
    of one or zero as the row is correct or not. *)
Theorem cmd_test_single_challenge (challenges : list challenge)
  (ch ch' : challenge) (provider model : str) (w w1 : World) :
  NoDup (map id challenges) ->
  In ch challenges ->
  id ch <> [] ->
  ensure_answers expand_rrule [ch] w = (Ok [ch'], w1) ->
  exists row w2,
    evaluate openai_chat anthropic_messages provider model ch' w1 = (Ok row, w2)
    /\ row_id row = id ch
    /\ cmd_test expand_rrule openai_chat anthropic_messages
         challenges (Some (id ch)) provider model w
       = (Finished ([row], if c_correct (row_comparison row) then 1 else 0),
          w2).
Proof.
  intros Hnd Hin Hne Hensure.
  destruct (@ensure_answers_spec World expand_rrule _ _ _ _ Hensure)
    as (Hall & _ & Hids).
  inversion Hall as [|? ? Hch' _]; subst.
  injection Hids as Hid.
  destruct (@evaluate_total World openai_chat anthropic_messages
              provider model ch' w1 Hch') as (row & w2 & Hrow & Hrid).
  exists row, w2. split; [exact Hrow|]. split; [congruence|].
  unfold cmd_test.
  rewrite (@select_target_unique challenges ch Hnd Hin Hne), Hensure.
  cbn [test_loop app]. unfold bindM, ret. now rewrite Hrow.
Qed.

End SingleChallenge.

Lemma cmd_test_single_challenge_witness :
  exists row calls,
    evaluate scenario_B_llm unreachable_llm (lit "openai") (lit "gpt-4o")
      (set_correct_answer
         (sample_challenge (lit "third") (lit "FREQ=WEEKLY;COUNT=1") None None)
         [JString (lit "2026-03-01T07:00:00+00:00")]) 1
    = (Ok row, calls)
    /\ row_id row = lit "third"
    /\ cmd_test sample_engine scenario_B_llm unreachable_llm sample_batch
         (Some (lit "third")) (lit "openai") (lit "gpt-4o") 0
       = (Finished ([row], if c_correct (row_comparison row) then 1 else 0),
          calls).
Proof.
  apply (@cmd_test_single_challenge nat sample_engine scenario_B_llm
           unreachable_llm sample_batch
           (sample_challenge (lit "third") (lit "FREQ=WEEKLY;COUNT=1") None None)
           _ (lit "openai") (lit "gpt-4o") 0 1).
  - vm_compute. repeat constructor; simpl; intuition discriminate.
  - right. right. now left.
  - discriminate.
  - reflexivity.
Defined.

(** ** What the decoder can raise *)

Section DecoderLimits.

Local Open Scope N_scope.

Lemma digits_all (ds : str) :
  forallb is_digit ds = true -> digits ds = (ds, []).
Proof.
  induction ds as [|c ds IH]; simpl; [reflexivity|].
  intros H. apply andb_true_iff in H. destruct H as [Hc Hds].
  now rewrite Hc, (IH Hds).
Qed.

Lemma filter_all {A} (f : A -> bool) (l : list A) :
  forallb f l = true -> filter f l = l.
Proof.
  induction l as [|x l IH]; simpl; [reflexivity|].
  intros H. apply andb_true_iff in H. destruct H as [Hx Hl].
  now rewrite Hx, (IH Hl).
Qed.

Lemma startswith_cons_neq (c : char) (r : str) (x : char) (p : str) :
  (x =? c) = false -> startswith (c :: r) (x :: p) = false.
Proof. intros H. cbn [startswith]. now rewrite H. Qed.

(** A digit is none of the characters the scanner looks for before it
    tries a number. *)
Lemma scan_once_digit (doc : str) (depth : nat) (c : char) (r : str) :
  is_digit c = true ->
  scan_once doc depth (c :: r)
  = match match_number (c :: r) with
    | Some (lexeme, r') => bind (number_of lexeme) (fun v => Ok (v, r'))
    | None => Raise (error_at doc "Expecting value" (c :: r))
    end.
Proof.
  intros Hc. rewrite scan_once_cons.
  unfold is_digit in Hc. apply andb_true_iff in Hc. destruct Hc as [Hlo Hhi].
  apply N.leb_le in Hlo, Hhi.
  assert (Hne : forall k, (k < 0x30 \/ 0x39 < k) -> (c =? k) = false)
    by (intros k Hk; apply N.eqb_neq; lia).
  rewrite (Hne 0x22), (Hne 0x7B), (Hne 0x5B) by lia.
  repeat match goal with
         | |- context [startswith (c :: r) ?p] =>
             let p' := eval cbv in p in
             let H := fresh in
             assert (H : startswith (c :: r) p' = false)
               by (apply startswith_cons_neq; apply N.eqb_neq; lia);
             change (startswith (c :: r) p) with (startswith (c :: r) p');
             rewrite H; clear H
         end.
  reflexivity.
Qed.

Lemma scan_once_too_deep (doc : str) (depth : nat) :
  forall (n : nat) (rest : str),
    (depth < n)%nat ->
    scan_once doc depth (repeat LBRACKET n ++ rest)
    = Raise (nested_too_deep "array").
Proof.
  induction depth as [|depth IH]; intros n rest Hn;
    (destruct n as [|n]; [lia|]); cbn [repeat app]; rewrite scan_once_cons;
    change (LBRACKET =? 34) with false; change (LBRACKET =? 123) with false;
    change (LBRACKET =? 91) with true; cbv iota; [reflexivity|].
  destruct n as [|n]; [lia|].
  unfold parse_array. cbn [repeat app skip_ws].
  change (is_ws LBRACKET) with false. cbv iota.
  change (LBRACKET =? 93) with false. cbv iota.
  cbn [array_loop].
  change (LBRACKET :: repeat LBRACKET n ++ rest)
    with (repeat LBRACKET (S n) ++ rest).
  rewrite IH by lia. reflexivity.
Qed.

End DecoderLimits.

(** X23: whatever the response, a failure of [parse_llm_response] is
    one of the failures of [json.loads]: a [JSONDecodeError], the
    [ValueError] of an integer with too many digits, or a [RecursionError].
    When the text left by the fence step has no opening bracket, the
    bracket step changes nothing and the call fails or returns a value that
    is not an array.  A text that holds no JSON at all fails with Expecting
    value at its first character. *)
Theorem parse_llm_response_outcomes (response : str) :
  (forall e, parse_llm_response response = Raise e ->
             In (exn_class e) decoder_failures)
  /\ (find (strip_fences (strip response)) LBRACKET = (-1)%Z ->
      slice_brackets (strip_fences (strip response))
      = strip_fences (strip response)
      /\ forall v, parse_llm_response response = Ok v -> is_array v = false)
  /\ parse_llm_response (lit "There is no array in this answer.")
     = Raise (JSONDecodeError "Expecting value"
                (lit "There is no array in this answer.") 0)
  /\ exn_text (JSONDecodeError "Expecting value"
                 (lit "There is no array in this answer.") 0)
     = lit "Expecting value: line 1 column 1 (char 0)".
Proof.
  split; [|split; [|split; reflexivity]].
  - intros e He. unfold parse_llm_response in He.
    pose proof (json_loads_fuel (slice_brackets (strip_fences (strip response))))
      as Hd.
    rewrite He in Hd. exact Hd.
  - intros Hfind. split; [now apply slice_brackets_no_opening|].
    intros v Hv. unfold parse_llm_response in Hv.
    rewrite slice_brackets_no_opening in Hv by assumption.
    destruct (is_array v) eqn:Ha; [|reflexivity].
    exfalso. apply find_absent in Hfind. apply Hfind.
    exact (json_loads_array _ Hv Ha).
Qed.

(** X24: a text that opens more arrays, one inside the other, than the
    call stack has room for is not decoded, whatever follows the opening
    brackets: [json.loads] raises [RecursionError]. *)
Theorem json_loads_nesting_limit (n : nat) (rest : str) :
  scanner_depth < n ->
  json_loads (repeat LBRACKET n ++ rest) = Raise (nested_too_deep "array")
  /\ exn_text (nested_too_deep "array")
     = lit "maximum recursion depth exceeded while decoding a JSON array from a unicode string".
Proof.
  intros Hn. split; [|reflexivity].
  unfold json_loads. destruct n as [|n]; [lia|].
  cbn [repeat app startswith skip_ws].
  change (N.eqb LBRACKET 65279) with false.
  change (is_ws LBRACKET) with false. cbv iota. cbn [andb].
  change (LBRACKET :: repeat LBRACKET n ++ rest)
    with (repeat LBRACKET (S n) ++ rest).
  rewrite scan_once_too_deep by exact Hn. reflexivity.
Qed.

Lemma json_loads_nesting_limit_witness :
  json_loads (repeat LBRACKET 1500 ++ repeat RBRACKET 1500)
  = Raise (nested_too_deep "array")
  /\ exn_text (nested_too_deep "array")
     = lit "maximum recursion depth exceeded while decoding a JSON array from a unicode string".
Proof.
  apply (@json_loads_nesting_limit 1500 (repeat RBRACKET 1500)).
  apply Nat.ltb_lt. vm_compute. reflexivity.
Defined.

(** X25: an integer written with more digits than [int] accepts is not
    decoded: [json.loads] raises the [ValueError] of the conversion, which
    names the limit and the number of digits. *)
Theorem json_loads_digit_limit (c : char) (ds : str) :
  (0x31 <=? c)%N && (c <=? 0x39)%N = true ->
  forallb is_digit ds = true ->
  int_max_str_digits < length (c :: ds) ->
  json_loads (c :: ds) = Raise (DigitLimitError (length (c :: ds)))
  /\ exn_class (DigitLimitError (length (c :: ds))) = lit "ValueError".
Proof.
  intros Hc Hds Hlen. split; [|reflexivity].
  assert (Hdigit : is_digit c = true).
  { unfold is_digit. apply andb_true_iff in Hc. destruct Hc as [Hlo Hhi].
    apply N.leb_le in Hlo. rewrite Hhi, andb_true_r. apply N.leb_le. lia. }
  assert (Hdigit' : (c <=? 0x39)%N = true)
    by (apply andb_true_iff in Hc; tauto).
  assert (Hne : forall k, (k < 0x30 \/ 0x39 < k)%N -> N.eqb c k = false).
  { intros k Hk. apply N.eqb_neq. apply andb_true_iff in Hc.
    destruct Hc as [Hlo Hhi]. apply N.leb_le in Hlo, Hhi. lia. }
  unfold json_loads.
  rewrite startswith_cons_neq
    by (apply N.eqb_neq; apply N.leb_le in Hdigit'; lia).
  cbn [skip_ws]. unfold is_ws.
  rewrite (Hne 0x20%N), (Hne 0x09%N), (Hne 0x0A%N), (Hne 0x0D%N) by lia.
  cbn [orb]. rewrite scan_once_digit by exact Hdigit.
  unfold match_number, match_int. rewrite (Hne 0x2D%N) by lia.
  rewrite Hc, (@digits_all ds Hds). cbn [match_frac match_exp app].
  rewrite !app_nil_r. unfold number_of.
  assert (Hint : is_int_lexeme (c :: ds) = true).
  { unfold is_int_lexeme. cbn [forallb]. rewrite Hdigit. cbn [orb andb].
    clear - Hds. induction ds as [|d ds IH]; [reflexivity|].
    cbn [forallb] in *. apply andb_true_iff in Hds. destruct Hds as [Hd Hds].
    now rewrite Hd, (IH Hds). }
  assert (Hcount : digit_count (c :: ds) = length (c :: ds)).
  { unfold digit_count. rewrite filter_all; [reflexivity|].
    cbn [forallb]. now rewrite Hdigit, Hds. }
  rewrite Hint, Hcount.
  apply Nat.ltb_lt in Hlen. rewrite Hlen. reflexivity.
Qed.

Lemma json_loads_digit_limit_witness :
  json_loads (0x37%N :: repeat 0x37%N 4300)
  = Raise (DigitLimitError (length (0x37%N :: repeat 0x37%N 4300)))
  /\ exn_class (DigitLimitError (length (0x37%N :: repeat 0x37%N 4300)))
     = lit "ValueError".
Proof.
  apply (@json_loads_digit_limit 0x37%N (repeat 0x37%N 4300)).
  - reflexivity.
  - vm_compute. reflexivity.
  - apply Nat.ltb_lt. vm_compute. reflexivity.
Defined.
